(** * swag [format] package: traversal, filtering, change gate, atomic write

    A shallow embedding of [format/format.go] (txix-open/swag) together with
    a model of the parts of Go's standard library it calls ([path/filepath],
    [strings], [bytes], [os], [io]), and the properties of the natural
    language specification stated and proved over that embedding.

    Go strings are byte sequences: they are [string] here (a list of 8-bit
    [ascii]); a [[]byte] is a [list byte]. *)

From Stdlib Require Import ZArith Ascii String List Lia Bool.
From Stdlib.Strings Require Import Byte.
From stdpp Require Import base option list gmap strings sorting.

Open Scope string_scope.
Open Scope list_scope.

(** ** Strings as character lists *)

Definition chars (s : string) : list ascii := list_ascii_of_string s.
Definition str (l : list ascii) : string := string_of_list_ascii l.

(** ** Package [strings] *)
Module strings.

(** [strings.HasPrefix], on character lists. *)
Fixpoint has_prefix (p s : list ascii) : bool :=
  match p, s with
  | [], _ => true
  | _ :: _, [] => false
  | a :: p', b :: s' => Ascii.eqb a b && has_prefix p' s'
  end.

(** [strings.HasSuffix(s, suffix)]:
    [len(s) >= len(suffix) && s[len(s)-len(suffix):] == suffix]. *)
Definition HasSuffix (s suffix : string) : bool :=
  has_prefix (rev (chars suffix)) (rev (chars s)).

(** [strings.ToLower] on the ASCII range: ['A'..'Z'] are mapped to
    ['a'..'z'], every other byte is kept.  (Go lower-cases non-ASCII
    runes with the Unicode tables; those are outside this model.) *)
Definition lower (c : ascii) : ascii :=
  let n := N_of_ascii c in
  if (65 <=? n)%N && (n <=? 90)%N then ascii_of_N (n + 32) else c.

Definition ToLower (s : string) : string := str (map lower (chars s)).

(** [strings.Split(s, sep)] for a one-byte separator: always at least one
    field, empty fields are kept. *)
Fixpoint split_on (sep : ascii) (s : list ascii) : list (list ascii) :=
  match s with
  | [] => [[]]
  | c :: s' =>
      if Ascii.eqb c sep then [] :: split_on sep s'
      else match split_on sep s' with
           | h :: t => (c :: h) :: t
           | [] => [[c]]
           end
  end.

Definition Split (s : string) (sep : ascii) : list string :=
  map str (split_on sep (chars s)).

(** White space as [unicode.IsSpace] has it, in UTF-8.  One byte: tab,
    line feed, vertical tab, form feed, carriage return, space. *)
Definition space1 (c : ascii) : bool :=
  let n := N_of_ascii c in
  (n =? 32)%N || ((9 <=? n)%N && (n <=? 13)%N).

(** Two bytes: U+0085 (C2 85) and U+00A0 (C2 A0). *)
Definition space2 (c1 c2 : ascii) : bool :=
  let a := N_of_ascii c1 in
  let b := N_of_ascii c2 in
  (a =? 194)%N && ((b =? 133)%N || (b =? 160)%N).

(** Three bytes: U+1680 (E1 9A 80), U+2000 to U+200A (E2 80 80 to
    E2 80 8A), U+2028, U+2029, U+202F (E2 80 A8, A9, AF), U+205F
    (E2 81 9F) and U+3000 (E3 80 80). *)
Definition space3 (c1 c2 c3 : ascii) : bool :=
  let a := N_of_ascii c1 in
  let b := N_of_ascii c2 in
  let c := N_of_ascii c3 in
  ((a =? 225)%N && (b =? 154)%N && (c =? 128)%N) ||
  ((a =? 226)%N && (b =? 128)%N &&
   (((128 <=? c)%N && (c <=? 138)%N) || (c =? 168)%N || (c =? 169)%N || (c =? 175)%N)) ||
  ((a =? 226)%N && (b =? 129)%N && (c =? 159)%N) ||
  ((a =? 227)%N && (b =? 128)%N && (c =? 128)%N).

(** The white space runes a string begins with are dropped.  With [fwd]
    the bytes are in reading order; without, the string is reversed, and
    the encodings are read backwards: a string ends in a white space rune
    iff it ends in the bytes of its encoding. *)
Fixpoint trim (fwd : bool) (s : list ascii) : list ascii :=
  match s with
  | c1 :: s1 =>
      if space1 c1 then trim fwd s1
      else
        match s1 with
        | c2 :: s2 =>
            if (if fwd then space2 c1 c2 else space2 c2 c1) then trim fwd s2
            else
              match s2 with
              | c3 :: s3 =>
                  if (if fwd then space3 c1 c2 c3 else space3 c3 c2 c1)
                  then trim fwd s3
                  else s
              | [] => s
              end
        | [] => s
        end
  | [] => []
  end.

(** [strings.TrimSpace]: leading and trailing Unicode white space is
    removed. *)
Definition TrimSpace (s : string) : string :=
  str (rev (trim false (rev (trim true (chars s))))).

(** [strings.Join(elems, sep)]. *)
Fixpoint Join (elems : list string) (sep : string) : string :=
  match elems with
  | [] => ""
  | [e] => e
  | e :: rest => e +:+ sep +:+ Join rest sep
  end.

End strings.

(** ** Package [path/filepath] (Unix: separator ['/'], no volume names) *)
Module filepath.

Definition IsPathSeparator (c : ascii) : bool := Ascii.eqb c "/".

Fixpoint drop_while (P : ascii -> bool) (s : list ascii) : list ascii :=
  match s with
  | c :: s' => if P c then drop_while P s' else s
  | [] => []
  end.

Fixpoint take_while (P : ascii -> bool) (s : list ascii) : list ascii :=
  match s with
  | c :: s' => if P c then c :: take_while P s' else []
  | [] => []
  end.

(** One element of the path goes onto the stack [out] (innermost first)
    the way [Clean] treats it: empty and ["."] elements vanish, [".."]
    removes the element before it, stays when there is none to remove in
    a relative path, and vanishes at the root. *)
Definition clean_step (rooted : bool) (out : list string) (elem : string)
  : list string :=
  if String.eqb elem "" || String.eqb elem "." then out
  else if String.eqb elem ".." then
    match out with
    | top :: out' => if String.eqb top ".." then elem :: out else out'
    | [] => if rooted then out else [elem]
    end
  else elem :: out.

(** [filepath.Clean]: the shortest path equivalent to [path] by purely
    lexical processing. *)
Definition Clean (path : string) : string :=
  let rooted := match chars path with
                | c :: _ => IsPathSeparator c
                | [] => false
                end in
  let out := fold_left (clean_step rooted) (strings.Split path "/") [] in
  let body := strings.Join (rev out) "/" in
  if rooted then "/" +:+ body
  else if String.eqb body "" then "." else body.

(** [filepath.Join]: the elements from the first non-empty one on, joined
    with the separator and cleaned; the empty string when all are empty. *)
Fixpoint Join (elem : list string) : string :=
  match elem with
  | [] => ""
  | e :: rest =>
      if String.eqb e "" then Join rest
      else Clean (strings.Join elem "/")
  end.

(** [filepath.Base]: the last element of [path], trailing separators
    removed first; ["."] for the empty path, ["/"] for only slashes. *)
Definition Base (path : string) : string :=
  if String.eqb path "" then "."
  else
    let r := drop_while IsPathSeparator (rev (chars path)) in
    let elem := take_while (fun c => negb (IsPathSeparator c)) r in
    match elem with
    | [] => "/"
    | _ => str (rev elem)
    end.

(** [filepath.Dir]: all but the last element of [path], cleaned. *)
Definition Dir (path : string) : string :=
  let r := drop_while (fun c => negb (IsPathSeparator c)) (rev (chars path)) in
  Clean (str (rev r)).

(** The backwards scan of [filepath.Ext]: [r] is the path reversed, [acc]
    the characters passed so far. *)
Fixpoint ext_scan (r acc : list ascii) : list ascii :=
  match r with
  | [] => []
  | c :: r' =>
      if IsPathSeparator c then []
      else if Ascii.eqb c "." then c :: acc
      else ext_scan r' (c :: acc)
  end.

(** [filepath.Ext]: the suffix of the last element from its final dot. *)
Definition Ext (path : string) : string :=
  str (ext_scan (rev (chars path)) []).

End filepath.


(** ** Errors and results *)

(** The error numbers the model distinguishes. *)
Inductive Errno :=
  ENOENT | EEXIST | EISDIR | ENOTDIR | ENOTEMPTY | EACCES | EIO | ENOSPC | EINVAL.

(** Go [error] values: [nil] is [None] of [option error]. *)
Inductive error :=
| PathError (op path : string) (errno : Errno)   (* fs.PathError *)
| LinkError (op oldpath newpath : string) (errno : Errno)   (* os.LinkError *)
| SkipDir                                        (* filepath.SkipDir *)
| ErrShortWrite                                  (* io.ErrShortWrite *)
| ErrPatternHasSeparator                         (* os.CreateTemp *)
| ErrOther (msg : string)                        (* any other error value *)
| Wrapped (prefix : string) (err : error).       (* fmt.Errorf(prefix+"%w", err) *)

Inductive result (A : Type) :=
| Ok (a : A)
| Err (err : error).
Arguments Ok {A} a.
Arguments Err {A} err.

Definition result_err {A} (r : result A) : option error :=
  match r with Ok _ => None | Err e => Some e end.

(** [fmt.Errorf(prefix + "%w", err)] *)
Definition fmt_Errorf (prefix : string) (err : option error) : error :=
  match err with
  | Some e => Wrapped prefix e
  | None => ErrOther (prefix +:+ "%!w(<nil>)")
  end.

(** ** Package [bytes] and the slice built-ins *)
Module bytes.

(** [bytes.Equal]: same length and the same bytes. *)
Fixpoint Equal (a b : list byte) : bool :=
  match a, b with
  | [], [] => true
  | x :: a', y :: b' => Byte.eqb x y && Equal a' b'
  | _, _ => false
  end.

(** [make([]byte, n)]. *)
Definition make (n : nat) : list byte := repeat x00 n.

(** [copy(dst, src)]: the first [min(len(dst), len(src))] bytes of [dst]
    are overwritten; the value is [dst] after the call. *)
Definition copy (dst src : list byte) : list byte :=
  let n := Nat.min (length dst) (length src) in
  firstn n src ++ skipn n dst.

End bytes.

(** ** File modes ([io/fs.FileMode], a 32-bit set of flags) *)
Module fs_mode.

Definition ModeDir : Z := Z.shiftl 1 31.
Definition ModeSetuid : Z := Z.shiftl 1 23.
Definition ModeSetgid : Z := Z.shiftl 1 22.
Definition ModeSticky : Z := Z.shiftl 1 20.
Definition ModePerm : Z := 511.   (* 0777 *)

(** The bits [os.Chmod] sets. *)
Definition settable : Z :=
  Z.lor ModePerm (Z.lor ModeSetuid (Z.lor ModeSetgid ModeSticky)).

(** [FileMode.IsDir] *)
Definition IsDir (m : Z) : bool := negb (Z.land m ModeDir =? 0)%Z.

(** [FileMode.Perm] *)
Definition Perm (m : Z) : Z := Z.land m ModePerm.

End fs_mode.

(** [os.FileInfo], as far as the program looks at it. *)
Record FileInfo := { Mode : Z }.

Definition IsDir (fi : FileInfo) : bool := fs_mode.IsDir (Mode fi).

(** ** The file system and the calls made to it *)

(** What a path names.  [perm] holds the permission, setuid, setgid and
    sticky bits.  A directory carries the entry names [readDirNames]
    reports for it.  [write] puts its temporary file into a directory only
    between its [CreateTemp] and the [Rename] or [Remove] that ends it, and
    no directory is listed in between, so listings are kept as stored. *)
Inductive node :=
| RegularFile (data : list byte) (perm : Z)
| Directory (names : list string) (perm : Z).

Definition node_Mode (nd : node) : Z :=
  match nd with
  | RegularFile _ perm => Z.land perm fs_mode.settable
  | Directory _ perm => Z.lor fs_mode.ModeDir (Z.land perm fs_mode.settable)
  end.

(** Everything the program asks of its environment, in the order asked.
    [call_Format] is a call of the formatter, [call_walkFn] a call of the
    visitor by [filepath.Walk] ([isdir] is [None] for a nil [FileInfo]). *)
Inductive call :=
| call_Stat (name : string)
| call_Lstat (name : string)
| call_ReadDir (name : string)
| call_ReadFile (name : string)
| call_CreateTemp (dir pattern : string)
| call_Write (name : string) (b : list byte)
| call_Close (name : string)
| call_Chmod (name : string) (mode : Z)
| call_Rename (oldpath newpath : string)
| call_Remove (name : string)
| call_Format (fileName : string) (contents : list byte)
| call_walkFn (path : string) (isdir : option bool).

(** The state of the world: the files, and the calls made so far (latest
    first). *)
Record World := { fs : gmap string node; trace : list call }.

(** What the program does not control: which calls fail and how
    ([fault n c] for call [c] made as the [n]-th call), the random part of
    temporary names ([rnd n i] for attempt [i] of the [n]-th call), and how
    many bytes a failing write still transfers. *)
Record Env := {
  fault : nat -> call -> option Errno;
  rnd : nat -> nat -> string;
  short : nat -> nat
}.

(** ** State passing *)

(** A computation that returns: [World -> A * World]. *)
Definition IO (A : Type) : Type := World -> A * World.

Definition ret {A} (a : A) : IO A := fun w => (a, w).

Definition bind {A B} (m : IO A) (k : A -> IO B) : IO B :=
  fun w => let '(a, w1) := m w in k a w1.

(** How a computation that may not return ends. *)
Inductive outcome (A : Type) :=
| Ret (a : A)
| Panic (msg : string)
| OutOfFuel.
Arguments Ret {A} a.
Arguments Panic {A} msg.
Arguments OutOfFuel {A}.

Definition M (A : Type) : Type := World -> outcome A * World.

Definition mret {A} (a : A) : M A := fun w => (Ret a, w).

Definition mbind {A B} (m : M A) (k : A -> M B) : M B :=
  fun w =>
    match m w with
    | (Ret a, w1) => k a w1
    | (Panic msg, w1) => (Panic msg, w1)
    | (OutOfFuel, w1) => (OutOfFuel, w1)
    end.

Definition lift {A} (m : IO A) : M A :=
  fun w => let '(a, w1) := m w in (Ret a, w1).

Definition panic {A} (msg : string) : M A := fun w => (Panic msg, w).

Definition out_of_fuel {A} : M A := fun w => (OutOfFuel, w).

Declare Scope io_scope.
Delimit Scope io_scope with io.
Notation "'let*' x ':=' m 'in' k" := (bind m (fun x => k))
  (at level 10, x name, m at level 100, k at level 200) : io_scope.
Declare Scope m_scope.
Delimit Scope m_scope with M.
Notation "'let*' x ':=' m 'in' k" := (mbind m (fun x => k))
  (at level 10, x name, m at level 100, k at level 200) : m_scope.

(** [defer d] before [body]: [d] runs when [body] has returned, its result
    is dropped. *)
Definition defer {A B} (d : IO B) (body : IO A) : IO A :=
  fun w => let '(a, w1) := body w in let '(_, w2) := d w1 in (a, w2).

(** The calls made between two worlds. *)
Definition events (w w' : World) : list call :=
  firstn (length (trace w') - length (trace w)) (trace w').

Definition is_Stat (c : call) : Prop := exists name, c = call_Stat name.

(** The calls the per-file pipeline on [path] may make: it reads no other
    file, and it neither walks nor visits. *)
Definition pipeline_call (path : string) (c : call) : Prop :=
  match c with
  | call_ReadFile name => name = path
  | call_Lstat _ | call_ReadDir _ | call_walkFn _ _ => False
  | _ => True
  end.

(** A call of the walk itself, neither a read nor a visit. *)
Definition neutral (c : call) : Prop :=
  match c with
  | call_Lstat _ | call_ReadDir _ => True
  | _ => False
  end.

(** [m] adds to the trace calls of which [P] holds, and only those. *)
Definition extends {A} (P : call -> Prop) (m : IO A) : Prop :=
  forall w a w', m w = (a, w') ->
    exists evs, trace w' = evs ++ trace w /\ Forall P evs.

(** ** Package [os] *)
Module os.
Section os.
Variable E : Env.

(** A call [c] is recorded, then fails with the injected error if there
    is one, and otherwise acts on the files through [sem]. *)
Definition syscall {A} (c : call) (op name : string)
    (sem : gmap string node -> result A * gmap string node) : IO (result A) :=
  fun w =>
    match fault E (length (trace w)) c with
    | Some errno =>
        (Err (PathError op name errno), {| fs := fs w; trace := c :: trace w |})
    | None =>
        let '(r, fs') := sem (fs w) in
        (r, {| fs := fs'; trace := c :: trace w |})
    end.

(** The prefixes of a path that end before a separator: the directories
    the path goes through, as it spells them. *)
Fixpoint prefixes (acc s : list ascii) : list string :=
  match s with
  | [] => []
  | c :: s' =>
      (if filepath.IsPathSeparator c then [str (rev acc)] else [])
      ++ prefixes (c :: acc) s'
  end.

Definition through (name : string) : list string := prefixes [] (chars name).

(** The error number for a name that is not there: [ENOTDIR] when the
    path goes through a regular file, [ENOENT] otherwise. *)
Definition absent (m : gmap string node) (name : string) : Errno :=
  if existsb (fun d => match m !! d with
                       | Some (RegularFile _ _) => true
                       | _ => false
                       end) (through name)
  then ENOTDIR else ENOENT.

Definition stat_sem (op name : string) (m : gmap string node)
  : result FileInfo * gmap string node :=
  match m !! name with
  | Some nd => (Ok {| Mode := node_Mode nd |}, m)
  | None => (Err (PathError op name (absent m name)), m)
  end.

(** [os.Stat] *)
Definition Stat (name : string) : IO (result FileInfo) :=
  syscall (call_Stat name) "stat" name (stat_sem "stat" name).

(** [os.Lstat]; the model has no symbolic links. *)
Definition Lstat (name : string) : IO (result FileInfo) :=
  syscall (call_Lstat name) "lstat" name (stat_sem "lstat" name).

(** [os.IsNotExist]: it looks into the errors of package [os] only and
    does not unwrap [%w]. *)
Definition IsNotExist (err : option error) : bool :=
  match err with
  | Some (PathError _ _ ENOENT) => true
  | Some (LinkError _ _ _ ENOENT) => true
  | _ => false
  end.

(** [os.ReadFile] *)
Definition ReadFile (name : string) : IO (result (list byte)) :=
  syscall (call_ReadFile name) "open" name
    (fun m => match m !! name with
              | Some (RegularFile data _) => (Ok data, m)
              | Some (Directory _ _) => (Err (PathError "read" name EISDIR), m)
              | None => (Err (PathError "open" name (absent m name)), m)
              end).

(** The open file [*os.File]: known by its name. *)
Record File := { Name : string }.

(** [prefixAndSuffix] of [os.CreateTemp]: the pattern is split at its
    last ['*']; a pattern with a path separator is refused. *)
Definition prefixAndSuffix (pattern : string) : result (string * string) :=
  let r := rev (chars pattern) in
  let not_star := fun c => negb (Ascii.eqb c "*") in
  if existsb filepath.IsPathSeparator r then Err ErrPatternHasSeparator
  else if forallb not_star r then Ok (pattern, "")
  else Ok (str (rev (tl (filepath.drop_while not_star r))),
           str (rev (filepath.take_while not_star r))).

(** [joinPath] of package [os]. *)
Definition joinPath (dir name : string) : string :=
  match rev (chars dir) with
  | c :: _ => if filepath.IsPathSeparator c then dir +:+ name
              else dir +:+ "/" +:+ name
  | [] => dir +:+ "/" +:+ name
  end.

(** The first of [tries] candidate names, from attempt [i] on, that is
    not taken. *)
Fixpoint first_free (m : gmap string node) (prefix suffix : string)
    (n tries i : nat) : option string :=
  match tries with
  | O => None
  | S tries' =>
      let name := prefix +:+ rnd E n i +:+ suffix in
      match m !! name with
      | None => Some name
      | Some _ => first_free m prefix suffix n tries' (S i)
      end
  end.

Definition TempDir : string := "/tmp".

(** [os.CreateTemp]: a new file, mode 0600, whose name is the pattern
    with a random string added, created exclusively; up to 10000 names
    are tried. *)
Definition CreateTemp (dir pattern : string) : IO (result File) :=
  fun w =>
    let dir' := if String.eqb dir "" then TempDir else dir in
    match prefixAndSuffix pattern with
    | Err e => (Err e, w)
    | Ok (prefix, suffix) =>
        syscall (call_CreateTemp dir pattern) "open" (joinPath dir' prefix)
          (fun m =>
             match first_free m (joinPath dir' prefix) suffix
                     (length (trace w)) (100 * 100) 0 with
             | Some name => (Ok {| Name := name |},
                             <[name := RegularFile [] 384]> m)
             | None => (Err (PathError "open" (joinPath dir' prefix) EEXIST), m)
             end) w
    end.

(** [File.Write]: the bytes are appended; a failing write may have
    transferred some of them. *)
Definition Write (f : File) (b : list byte) : IO (option error) :=
  fun w =>
    let n := length (trace w) in
    let c := call_Write (Name f) b in
    let put (k : list byte) :=
      match fs w !! Name f with
      | Some (RegularFile data perm) =>
          <[Name f := RegularFile (data ++ k) perm]> (fs w)
      | _ => fs w
      end in
    match fault E n c with
    | Some errno =>
        (Some (PathError "write" (Name f) errno),
         {| fs := put (firstn (short E n) b); trace := c :: trace w |})
    | None =>
        match fs w !! Name f with
        | Some (RegularFile _ _) => (None, {| fs := put b; trace := c :: trace w |})
        | _ => (Some (PathError "write" (Name f) EINVAL),
                {| fs := fs w; trace := c :: trace w |})
        end
    end.

(** [File.Close] *)
Definition Close (f : File) : IO (option error) :=
  fun w =>
    let '(r, w1) := syscall (call_Close (Name f)) "close" (Name f)
                      (fun m => (Ok tt, m)) w in
    (result_err r, w1).

(** [os.Chmod] *)
Definition Chmod (name : string) (mode : Z) : IO (option error) :=
  fun w =>
    let '(r, w1) :=
      syscall (call_Chmod name mode) "chmod" name
        (fun m => match m !! name with
                  | Some (RegularFile data _) =>
                      (Ok tt, <[name := RegularFile data (Z.land mode fs_mode.settable)]> m)
                  | Some (Directory names _) =>
                      (Ok tt, <[name := Directory names (Z.land mode fs_mode.settable)]> m)
                  | None => (Err (PathError "chmod" name (absent m name)), m)
                  end) w in
    (result_err r, w1).

(** The errors of [os.Rename] are [*os.LinkError]s. *)
Definition link_error (oldpath newpath : string) (err : error) : error :=
  match err with
  | PathError op _ errno => LinkError op oldpath newpath errno
  | _ => err
  end.

(** [os.Rename], for regular files (the program renames nothing else):
    [newpath] is replaced in one step or not at all; a regular file is not
    renamed onto a directory ([EEXIST]). *)
Definition Rename (oldpath newpath : string) : IO (option error) :=
  fun w =>
    let '(r, w1) :=
      syscall (call_Rename oldpath newpath) "rename" oldpath
        (fun m => match m !! oldpath, m !! newpath with
                  | None, _ =>
                      (Err (PathError "rename" oldpath (absent m oldpath)), m)
                  | Some (Directory _ _), _ =>
                      (Err (PathError "rename" oldpath EINVAL), m)
                  | Some (RegularFile _ _), Some (Directory _ _) =>
                      (Err (PathError "rename" oldpath EEXIST), m)
                  | Some (RegularFile data perm), _ =>
                      (Ok tt, <[newpath := RegularFile data perm]> (delete oldpath m))
                  end) w in
    (link_error oldpath newpath <$> result_err r, w1).

(** [os.Remove] *)
Definition Remove (name : string) : IO (option error) :=
  fun w =>
    let '(r, w1) :=
      syscall (call_Remove name) "remove" name
        (fun m => match m !! name with
                  | None => (Err (PathError "remove" name (absent m name)), m)
                  | Some (Directory (_ :: _) _) =>
                      (Err (PathError "remove" name ENOTEMPTY), m)
                  | Some _ => (Ok tt, delete name m)
                  end) w in
    (result_err r, w1).

End os.
End os.

(** ** [filepath.Walk] *)
Module pathwalk.
Section walk.
Variable E : Env.

(** [filepath.WalkFunc] *)
Definition WalkFunc : Type :=
  string -> option FileInfo -> option error -> M (option error).

Variable walkFn : WalkFunc.

(** [readDirNames]: the entry names of a directory, sorted. *)
Definition readDirNames (dirname : string) : IO (result (list string)) :=
  os.syscall E (call_ReadDir dirname) "open" dirname
    (fun m => match m !! dirname with
              | Some (Directory names _) => (Ok (merge_sort String.le names), m)
              | Some (RegularFile _ _) =>
                  (Err (PathError "readdirent" dirname ENOTDIR), m)
              | None => (Err (PathError "open" dirname (os.absent m dirname)), m)
              end).

(** A call of the visitor, recorded. *)
Definition invoke (path : string) (info : option FileInfo) (err : option error)
  : M (option error) :=
  fun w =>
    walkFn path info err
      {| fs := fs w; trace := call_walkFn path (IsDir <$> info) :: trace w |}.

Definition is_SkipDir (err : error) : bool :=
  match err with SkipDir => true | _ => false end.

(** The loop of [walk] over the names of a directory; [rec] walks one
    entry. *)
Fixpoint walk_names (rec : string -> FileInfo -> M (option error))
    (path : string) (names : list string) : M (option error) :=
  match names with
  | [] => mret None
  | name :: rest =>
      let filename := filepath.Join [path; name] in
      (let* r := lift (os.Lstat E filename) in
       match r with
       | Err err =>
           let* err1 := invoke filename None (Some err) in
           match err1 with
           | Some e => if negb (is_SkipDir e) then mret (Some e)
                       else walk_names rec path rest
           | None => walk_names rec path rest
           end
       | Ok fileInfo =>
           let* err := rec filename fileInfo in
           match err with
           | Some e => if negb (IsDir fileInfo) || negb (is_SkipDir e)
                       then mret (Some e)
                       else walk_names rec path rest
           | None => walk_names rec path rest
           end
       end)%M
  end.

(** [walk]: the visitor is called on [path]; a directory is listed first
    and, unless the listing failed or the visitor returned an error,
    its entries are walked in order. *)
Fixpoint walk (fuel : nat) (path : string) (info : FileInfo) : M (option error) :=
  match fuel with
  | O => out_of_fuel
  | S fuel' =>
      if negb (IsDir info) then invoke path (Some info) None
      else
        (let* r := lift (readDirNames path) in
         let* err1 := invoke path (Some info) (result_err r) in
         match r, err1 with
         | Ok names, None => walk_names (walk fuel') path names
         | _, _ => mret err1
         end)%M
  end.

(** [filepath.Walk] *)
Definition Walk (fuel : nat) (root : string) : M (option error) :=
  (let* r := lift (os.Lstat E root) in
   let* err := match r with
               | Err err => invoke root None (Some err)
               | Ok info => walk fuel root info
               end in
   match err with
   | Some SkipDir => mret None
   | _ => mret err
   end)%M.

End walk.
End pathwalk.

(** ** Package [io] *)
Module io.

(** An [io.Reader]: the chunks its [Read] calls will deliver, then end of
    input or an error. *)
Record Reader := { pending : list (list byte); failure : option error }.

(** [io.ReadAll]: everything up to end of input or the first error. *)
Definition ReadAll (r : Reader) : (list byte * option error) * Reader :=
  ((concat (pending r), failure r), {| pending := []; failure := failure r |}).

(** An [io.Writer]: what has been written to it, and how many more bytes
    it takes before a write stops short with [snd] of [limit]. *)
Record Writer := { written : list byte; limit : option (nat * option error) }.

Definition Write (dst : Writer) (p : list byte) : (nat * option error) * Writer :=
  match limit dst with
  | Some (k, e) =>
      if (length p <=? k)%nat
      then ((length p, None),
            {| written := written dst ++ p; limit := Some ((k - length p)%nat, e) |})
      else ((k, e), {| written := written dst ++ firstn k p; limit := Some (O, e) |})
  | None => ((length p, None), {| written := written dst ++ p; limit := None |})
  end.

(** [io.Copy(dst, bytes.NewReader(b))]: a [bytes.Reader] writes itself
    with one [Write], none when it is empty, and reports a short write
    that came without an error as [ErrShortWrite]. *)
Definition Copy (dst : Writer) (b : list byte) : (nat * option error) * Writer :=
  match b with
  | [] => ((O, None), dst)
  | _ =>
      let '((m, err), dst') := Write dst b in
      if negb (m =? length b)%nat && match err with Some _ => false | None => true end
      then ((m, Some ErrShortWrite), dst')
      else ((m, err), dst')
  end.

End io.

(** ** Package [swag]: the formatter *)
Module swag.

(** [swag.Formatter] is used through its method [Format(fileName,
    contents)] only, a function of the two arguments. *)
Record Formatter := { Format : string -> list byte -> result (list byte) }.

End swag.

(** ** Package [format] *)
Module format.

(** [Format]: the formatter and the excluded directories and files. *)
Record Format := { formatter : swag.Formatter; exclude : gmap string bool }.

(** [New], given what [swag.NewFormatter] returns. *)
Definition New (fm : swag.Formatter) : Format :=
  {| formatter := fm; exclude := ∅ |}.

Record Config := { SearchDir : string; Excludes : string; MainFile : string }.

Definition defaultExcludes : list string := ["docs"; "vendor"].

(** [f.exclude[path]]: [false] for a key that is absent. *)
Definition excluded (f : Format) (path : string) : bool :=
  default false (exclude f !! path).

(** [f.exclude[path] = true] *)
Definition set_exclude (f : Format) (path : string) : Format :=
  {| formatter := formatter f; exclude := <[path := true]> (exclude f) |}.

(** [f.excludeDir]; [filepath.Base(path)[0]] reads the first byte of the
    base name, which is never empty. *)
Definition excludeDir (f : Format) (path : string) : bool :=
  excluded f path ||
  (match String.get 0 (filepath.Base path) with
   | Some c => Ascii.eqb c "."
   | None => false
   end && (1 <? String.length (filepath.Base path))%nat).

(** [f.excludeFile] *)
Definition excludeFile (f : Format) (path : string) : bool :=
  excluded f path ||
  strings.HasSuffix (strings.ToLower path) "_test.go" ||
  negb (String.eqb (filepath.Ext path) ".go").

Section run.
Variable E : Env.

(** [f.formatter.Format], recorded. *)
Definition Formatter_Format (f : Format) (fileName : string) (contents : list byte)
  : IO (result (list byte)) :=
  fun w =>
    (swag.Format (formatter f) fileName contents,
     {| fs := fs w; trace := call_Format fileName contents :: trace w |}).

(** [write] *)
Definition write (path : string) (contents : list byte) : IO (option error) :=
  (let* r := os.Stat E path in
   match r with
   | Err err => ret (Some err)
   | Ok originalFileInfo =>
       let* r := os.CreateTemp E (filepath.Dir path) (filepath.Base path) in
       match r with
       | Err err => ret (Some err)
       | Ok f =>
           defer (os.Remove E (os.Name f))
             (let* err := os.Write E f contents in
              match err with
              | Some err => ret (Some err)
              | None =>
                  let* err := os.Close E f in
                  match err with
                  | Some err => ret (Some err)
                  | None =>
                      let* err := os.Chmod E (os.Name f) (Mode originalFileInfo) in
                      match err with
                      | Some err => ret (Some err)
                      | None => os.Rename E (os.Name f) path
                      end
                  end
              end)
       end
   end)%io.

(** [f.format] *)
Definition format (f : Format) (path : string) : IO (option error) :=
  (let* r := os.ReadFile E path in
   match r with
   | Err err => ret (Some err)
   | Ok original =>
       let contents := bytes.copy (bytes.make (length original)) original in
       let* r := Formatter_Format f path contents in
       match r with
       | Err err => ret (Some err)
       | Ok formatted =>
           if bytes.Equal original formatted then ret None
           else write path formatted
       end
   end)%io.

(** [f.visit]; the method call on a nil [fileInfo] panics. *)
Definition visit (f : Format) (path : string) (fileInfo : option FileInfo)
    (err : option error) : M (option error) :=
  match fileInfo with
  | None => panic "runtime error: invalid memory address or nil pointer dereference"
  | Some fi =>
      if IsDir fi && excludeDir f path then mret (Some SkipDir)
      else if excludeFile f path then mret None
      else
        (let* err := lift (format f path) in
         match err with
         | Some err => mret (Some (fmt_Errorf "fmt: " (Some err)))
         | None => mret None
         end)%M
  end.

(** The first loop of [Build]: every root is looked up, and the default
    excludes are entered under it. *)
Fixpoint Build_roots (f : Format) (searchDirs : list string)
  : IO (option error * Format) :=
  match searchDirs with
  | [] => ret (None, f)
  | searchDir :: rest =>
      (let* r := os.Stat E searchDir in
       if os.IsNotExist (result_err r)
       then ret (Some (fmt_Errorf "fmt: " (result_err r)), f)
       else
         Build_roots
           (fold_left (fun f d => set_exclude f (filepath.Join [searchDir; d]))
                      defaultExcludes f)
           rest)%io
  end.

(** The second loop of [Build]: the excludes of the configuration. *)
Definition Build_excludes (f : Format) (fields : list string) : Format :=
  fold_left
    (fun f fi =>
       let fi := strings.TrimSpace fi in
       if negb (String.eqb fi "") then set_exclude f (filepath.Clean fi) else f)
    fields f.

(** The third loop of [Build]: the roots are walked in order. *)
Fixpoint Build_walk (fuel : nat) (f : Format) (searchDirs : list string)
  : M (option error) :=
  match searchDirs with
  | [] => mret None
  | searchDir :: rest =>
      (let* err := pathwalk.Walk E (visit f) fuel searchDir in
       match err with
       | Some err => mret (Some err)
       | None => Build_walk fuel f rest
       end)%M
  end.

(** [f.Build]: the result, the receiver after the call, the world after
    the call. *)
Definition Build (fuel : nat) (f : Format) (config : Config) (w : World)
  : outcome (option error) * Format * World :=
  let searchDirs := strings.Split (SearchDir config) "," in
  let '((err, f1), w1) := Build_roots f searchDirs w in
  match err with
  | Some err => (Ret (Some err), f1, w1)
  | None =>
      let f2 := Build_excludes f1 (strings.Split (Excludes config) ",") in
      let '(out, w2) := Build_walk fuel f2 searchDirs w1 in
      (out, f2, w2)
  end.

(** [f.Run]: the result, the reader and the writer after the call. *)
Definition Run (f : Format) (src : io.Reader) (dst : io.Writer)
  : IO (option error * io.Reader * io.Writer) :=
  let '((contents, err), src') := io.ReadAll src in
  match err with
  | Some err => ret (Some err, src', dst)
  | None =>
      (let* r := Formatter_Format f "" contents in
       match r with
       | Err err => ret (Some err, src', dst)
       | Ok result =>
           let '((_, err), dst') := io.Copy dst result in
           match err with
           | Some err => ret (Some err, src', dst')
           | None => ret (None, src', dst')
           end
       end)%io
  end.

End run.
End format.

(** ** Notions the properties are stated with *)


(** [reached m f root p]: in the tree [m], [p] is [root], or is got from
    it by joining, one at a time, a name that a directory lists onto that
    directory, through directories that [excludeDir] does not hold of. *)
Inductive reached (m : gmap string node) (f : format.Format) (root : string)
  : string -> Prop :=
| reached_root : reached m f root root
| reached_entry dir names perm name :
    reached m f root dir ->
    m !! dir = Some (Directory names perm) ->
    In name names ->
    format.excludeDir f dir = false ->
    reached m f root (filepath.Join [dir; name]).

(** The files read by the calls [evs] are reached from [root]. *)
Definition reads_reached (m : gmap string node) (f : format.Format)
    (root : string) (evs : list call) : Prop :=
  forall p, In (call_ReadFile p) evs -> reached m f root p.

(** The directories of [m'] are directories of [m], as they were. *)
Definition directories_from (m m' : gmap string node) : Prop :=
  forall p names perm,
    m' !! p = Some (Directory names perm) -> m !! p = Some (Directory names perm).

(** [p] lies inside [dir]: it is got from [dir] by joining one entry name
    or more. *)
Definition inside (dir p : string) : Prop :=
  exists names, names <> [] /\
    p = fold_left (fun d name => filepath.Join [d; name]) names dir.

Definition is_directory (m : gmap string node) (path : string) : Prop :=
  exists names perm, m !! path = Some (Directory names perm).

(** What a walk that made the calls [evs] and ended in [out] has
    respected: a directory handed to the visitor that neither exclusion
    rule holds of was read as a file, which failed and ended the walk with
    the wrapped error of the read. *)
Definition walk_inv (f : format.Format) (evs : list call)
    (out : outcome (option error)) : Prop :=
  (forall dir, In (call_walkFn dir (Some true)) evs ->
     format.excludeDir f dir = false -> format.excludeFile f dir = false ->
     exists e, out = Ret (Some (Wrapped "fmt: " e)) /\
       In (call_ReadFile dir) evs /\ exists op errno, e = PathError op dir errno).

(** The calls of the per-file pipeline on [path], by what they name: it
    reads, stats and formats [path], and renames onto [path]. *)
Definition pipeline_on (path : string) (c : call) : Prop :=
  match c with
  | call_ReadFile name | call_Stat name | call_Format name _ => name = path
  | call_Rename _ newpath => newpath = path
  | call_Lstat _ | call_ReadDir _ | call_walkFn _ _ => False
  | _ => True
  end.

(** A call that reads, formats or replaces a file names a file that
    [excludeFile] does not hold of. *)
Definition eligible_call (f : format.Format) (c : call) : Prop :=
  match c with
  | call_ReadFile name | call_Format name _ => format.excludeFile f name = false
  | call_Rename _ newpath => format.excludeFile f newpath = false
  | _ => True
  end.



(** The files changed between [w] and [w'] are among those read. *)
Definition changed_only_read (w w' : World) : Prop :=
  exists evs, trace w' = evs ++ trace w /\
    forall p, ~ In (call_ReadFile p) evs -> fs w' !! p = fs w !! p.

(** The calls made between [w] and [w'] are eligible for [f]. *)
Definition eligible_calls (f : format.Format) (w w' : World) : Prop :=
  exists evs, trace w' = evs ++ trace w /\ Forall (eligible_call f) evs.

(** An error of [Build] proper: not the signal [SkipDir]. *)
Definition is_wrapped (err : error) : Prop :=
  exists e, err = Wrapped "fmt: " e.

(** The paths the default excludes stand for under the roots [roots]. *)
Definition default_excluded (roots : list string) (k : string) : Prop :=
  exists root d, In root roots /\ In d format.defaultExcludes /\
                 k = filepath.Join [root; d].

(** The paths the fields of an [Excludes] string stand for. *)
Definition user_excluded (fields : list string) (k : string) : Prop :=
  exists fi, In fi fields /\ strings.TrimSpace fi <> "" /\
             k = filepath.Clean (strings.TrimSpace fi).

(** The paths a configuration enters into the exclusion set. *)
Definition registered (config : format.Config) (k : string) : Prop :=
  default_excluded (strings.Split (format.SearchDir config) ",") k \/
  user_excluded (strings.Split (format.Excludes config) ",") k.

(** A call of the walk: it examines or lists an entry, or hands it to the
    visitor. *)
Definition walk_call (c : call) : Prop :=
  match c with
  | call_Lstat _ | call_ReadDir _ | call_walkFn _ _ => True
  | _ => False
  end.

(** The last call made was not a call of the walk. *)
Definition after_failed_step (w : World) : Prop :=
  match trace w with
  | c :: _ => ~ walk_call c
  | [] => False
  end.

(** The panic of the visitor on a nil [FileInfo], nothing having happened
    since. *)
Definition nil_panic (msg : string) (w : World) : Prop :=
  msg = "runtime error: invalid memory address or nil pointer dereference" /\
  exists path rest, trace w = call_walkFn path None :: rest.

(** How a part of the walk may end: with the signal [SkipDir] where it is
    allowed, with a wrapped error right after the step that failed, with
    the panic of the visitor; or without an error. *)
Definition ends_well (skip : bool) (out : outcome (option error)) (w : World) : Prop :=
  match out with
  | Ret (Some e) => (skip = true /\ e = SkipDir) \/ (is_wrapped e /\ after_failed_step w)
  | Panic msg => nil_panic msg w
  | _ => True
  end.

(** ** Worlds and environments the examples run in *)
Module sample.

Definition bs (s : string) : list byte := list_byte_of_string s.

(** No call fails; temporary names end in ["123"]. *)
Definition quiet : Env :=
  {| fault := fun _ _ => None; rnd := fun _ _ => "123"; short := fun _ => O |}.

(** Every write to a file fails after two bytes. *)
Definition disk_full : Env :=
  {| fault := fun _ c => match c with
                         | call_Write _ _ => Some ENOSPC
                         | _ => None
                         end;
     rnd := fun _ _ => "123"; short := fun _ => 2%nat |}.

(** Permission is denied for the one call [c0] asks for. *)
Definition denied (c0 : call -> bool) : Env :=
  {| fault := fun _ c => if c0 c then Some EACCES else None;
     rnd := fun _ _ => "123"; short := fun _ => O |}.

Definition lstat_of (name : string) (c : call) : bool :=
  match c with call_Lstat n => String.eqb n name | _ => false end.

Definition readdir_of (name : string) (c : call) : bool :=
  match c with call_ReadDir n => String.eqb n name | _ => false end.

(** A formatter that ends the contents in ['!'], and refuses no
    contents at all. *)
Definition bang : swag.Formatter :=
  {| swag.Format := fun _ c =>
       match rev c with
       | [] => Err (ErrOther "empty")
       | x :: _ => if Byte.eqb x x21 then Ok c else Ok (c ++ [x21])
       end |}.

(** A formatter that puts the file name in front of the contents. *)
Definition stamp : swag.Formatter :=
  {| swag.Format := fun fileName c => Ok (bs fileName ++ c) |}.

Definition tree : gmap string node :=
  list_to_map
    [ ("proj", Directory ["main.go"; "vendor"; ".git"; "docs";
                          "handler_test.go"; "notes.txt"; "sub"] 493%Z);
      ("proj/main.go", RegularFile (bs "main") 420%Z);
      ("proj/vendor", Directory ["x.go"] 493%Z);
      ("proj/vendor/x.go", RegularFile (bs "x") 420%Z);
      ("proj/.git", Directory ["y.go"] 493%Z);
      ("proj/.git/y.go", RegularFile (bs "y") 420%Z);
      ("proj/docs", Directory ["z.go"] 493%Z);
      ("proj/docs/z.go", RegularFile (bs "z") 420%Z);
      ("proj/handler_test.go", RegularFile (bs "t") 420%Z);
      ("proj/notes.txt", RegularFile (bs "n") 420%Z);
      ("proj/sub", Directory ["a.go"] 493%Z);
      ("proj/sub/a.go", RegularFile (bs "a!") 384%Z) ].

Definition world : World := {| fs := tree; trace := [] |}.

(** A directory whose name ends in [".go"]. *)
Definition src_tree : gmap string node :=
  list_to_map
    [ ("src", Directory ["a.go"; "pkg.go"; "z.go"] 493%Z);
      ("src/a.go", RegularFile (bs "a") 420%Z);
      ("src/pkg.go", Directory ["doc.go"] 493%Z);
      ("src/pkg.go/doc.go", RegularFile (bs "d") 420%Z);
      ("src/z.go", RegularFile (bs "z") 420%Z) ].

(** A root inside a hidden directory. *)
Definition hooks_tree : gmap string node :=
  list_to_map
    [ (".git/hooks", Directory ["pre.go"] 493%Z);
      (".git/hooks/pre.go", RegularFile (bs "x") 420%Z) ].

(** A file with nothing in it, which the formatter [bang] refuses. *)
Definition empty_tree : gmap string node :=
  list_to_map [ ("e.go", RegularFile [] 420%Z) ].

Definition root (searchDir : string) : format.Config :=
  {| format.SearchDir := searchDir; format.Excludes := "";
     format.MainFile := "" |}.

Definition proj : format.Config :=
  {| format.SearchDir := "proj"; format.Excludes := ""; format.MainFile := "" |}.

End sample.

(** * Properties *)

(** ** Strings, bytes, modes *)

Lemma chars_str l : chars (str l) = l.
Proof. apply list_ascii_of_string_of_list_ascii. Qed.

Lemma str_chars s : str (chars s) = s.
Proof. apply string_of_list_ascii_of_string. Qed.

Example Clean_examples :
  map filepath.Clean ["a//b/./c/.."; "/../a"; ""; "./"; "../../x"; "a/.."; "/"; "a/b/"]
  = ["a/b"; "/a"; "."; "."; "../../x"; "."; "/"; "a/b"].
Proof. reflexivity. Qed.

Example Join_examples :
  map filepath.Join [["./"; "docs"]; ["/proj"; "vendor"]; [""; "x"]; [""; ""]; [".."; "a"]]
  = ["docs"; "/proj/vendor"; "x"; ""; "../a"].
Proof. reflexivity. Qed.

Example Base_examples :
  map filepath.Base [""; "/"; "a/b/"; ".git"; "/proj/.git"; ".."; "../.."; "."; "x.go"]
  = ["."; "/"; "b"; ".git"; ".git"; ".."; ".."; "."; "x.go"].
Proof. reflexivity. Qed.

Example Dir_examples :
  map filepath.Dir ["a/b.go"; "b.go"; "/b.go"; "./b.go"; "a/b/"]
  = ["a"; "."; "/"; "."; "a/b"].
Proof. reflexivity. Qed.

Example Ext_examples :
  map filepath.Ext ["a/b.go"; "b"; "a.b/c"; "x.tar.go"; ".go"; "a_test.GO"]
  = [".go"; ""; ""; ".go"; ".go"; ".GO"].
Proof. reflexivity. Qed.

Example strings_examples :
  strings.Split "a,,b," "," = ["a"; ""; "b"; ""]
  /\ strings.Split "" "," = [""]
  /\ strings.TrimSpace "  a b	 " = "a b"
  /\ strings.ToLower "Handler_TEST.go" = "handler_test.go"
  /\ strings.HasSuffix "handler_test.go" "_test.go" = true
  /\ strings.HasSuffix "t.go" "_test.go" = false.
Proof. repeat split; reflexivity. Qed.

Lemma str_nil (l : list ascii) : str l = "" -> l = [].
Proof. intros H. rewrite <- (chars_str l). by rewrite H. Qed.

(** [filepath.Base] never returns the empty string, so that indexing its
    first byte, as [excludeDir] does, is in range. *)
Lemma Base_first_byte (path : string) :
  exists c, String.get 0 (filepath.Base path) = Some c.
Proof.
  unfold filepath.Base. destruct (String.eqb path ""); [by eexists|].
  destruct (filepath.take_while _ _) as [|c elem] eqn:Ht; [by eexists|].
  destruct (str (rev (c :: elem))) as [|c' s'] eqn:Hs; [|by exists c'].
  apply str_nil in Hs. apply (f_equal (@length ascii)) in Hs.
  rewrite length_rev in Hs. done.
Qed.

Lemma bytes_Equal_iff (a b : list byte) : bytes.Equal a b = true <-> a = b.
Proof.
  revert b. induction a as [|x a IH]; intros [|y b]; simpl; try easy.
  rewrite andb_true_iff, IH. split.
  - intros [Hxy ->]. by rewrite (Byte.byte_dec_bl _ _ Hxy).
  - intros [= -> ->]. split; [by apply Byte.byte_dec_lb | done].
Qed.

Lemma bytes_Equal_false (a b : list byte) : bytes.Equal a b = false <-> a <> b.
Proof.
  rewrite <- bytes_Equal_iff. destruct (bytes.Equal a b); split; congruence.
Qed.

Lemma bytes_copy_make (original : list byte) :
  bytes.copy (bytes.make (length original)) original = original.
Proof.
  unfold bytes.copy, bytes.make. rewrite repeat_length, Nat.min_id.
  rewrite firstn_all, skipn_all2 by (rewrite repeat_length; lia).
  apply app_nil_r.
Qed.

Lemma settable_idem (m : Z) :
  Z.land (Z.land m fs_mode.settable) fs_mode.settable = Z.land m fs_mode.settable.
Proof. by rewrite <- Z.land_assoc, Z.land_diag. Qed.

Lemma IsDir_RegularFile data perm :
  fs_mode.IsDir (node_Mode (RegularFile data perm)) = false.
Proof.
  unfold fs_mode.IsDir. simpl. rewrite <- Z.land_assoc.
  change (Z.land fs_mode.settable fs_mode.ModeDir) with 0%Z.
  by rewrite Z.land_0_r.
Qed.

Lemma IsDir_Directory names perm :
  fs_mode.IsDir (node_Mode (Directory names perm)) = true.
Proof.
  unfold fs_mode.IsDir. simpl. rewrite Z.land_lor_distr_l, Z.land_diag.
  rewrite <- Z.land_assoc.
  change (Z.land fs_mode.settable fs_mode.ModeDir) with 0%Z.
  by rewrite Z.land_0_r, Z.lor_0_r.
Qed.

Lemma Perm_settable (m : Z) :
  fs_mode.Perm (Z.land m fs_mode.settable) = fs_mode.Perm m.
Proof.
  unfold fs_mode.Perm. rewrite <- Z.land_assoc.
  by change (Z.land fs_mode.settable fs_mode.ModePerm) with fs_mode.ModePerm.
Qed.

(** ** What each call does to the world *)
Section os_facts.
Variable E : Env.

Lemma syscall_spec {A} c op name
    (sem : gmap string node -> result A * gmap string node) w r w' :
  os.syscall E c op name sem w = (r, w') ->
  trace w' = c :: trace w /\
  ((exists errno, fault E (length (trace w)) c = Some errno /\
                  r = Err (PathError op name errno) /\ fs w' = fs w)
   \/ (fault E (length (trace w)) c = None /\ sem (fs w) = (r, fs w'))).
Proof.
  unfold os.syscall. destruct (fault E _ c) as [errno|].
  - intros [= <- <-]. split; [done|]. left. by exists errno.
  - destruct (sem (fs w)) as [r0 m0]. intros [= <- <-]. split; [done|]. by right.
Qed.

Lemma Stat_spec name w r w' :
  os.Stat E name w = (r, w') ->
  fs w' = fs w /\ trace w' = call_Stat name :: trace w /\
  forall fi, r = Ok fi ->
    exists nd, fs w !! name = Some nd /\ Mode fi = node_Mode nd.
Proof.
  intros H. apply syscall_spec in H as [Ht [(errno & _ & -> & Hfs)|[_ Hsem]]].
  - repeat split; try done.
  - unfold os.stat_sem in Hsem. destruct (fs w !! name) as [nd|] eqn:Hnd.
    + injection Hsem as <- <-. repeat split; try done.
      intros fi [= <-]. by exists nd.
    + injection Hsem as <- <-. repeat split; try done.
Qed.


Lemma Lstat_spec name w r w' :
  os.Lstat E name w = (r, w') ->
  fs w' = fs w /\ trace w' = call_Lstat name :: trace w /\
  forall fi, r = Ok fi ->
    exists nd, fs w !! name = Some nd /\ Mode fi = node_Mode nd.
Proof.
  intros H. apply syscall_spec in H as [Ht [(errno & _ & -> & Hfs)|[_ Hsem]]].
  - repeat split; try done.
  - unfold os.stat_sem in Hsem. destruct (fs w !! name) as [nd|] eqn:Hnd.
    + injection Hsem as <- <-. repeat split; try done.
      intros fi [= <-]. by exists nd.
    + injection Hsem as <- <-. repeat split; try done.
Qed.

Lemma ReadFile_spec name w r w' :
  os.ReadFile E name w = (r, w') ->
  fs w' = fs w /\ trace w' = call_ReadFile name :: trace w /\
  forall data, r = Ok data -> exists perm, fs w !! name = Some (RegularFile data perm).
Proof.
  intros H. apply syscall_spec in H as [Ht [(errno & _ & -> & Hfs)|[_ Hsem]]].
  - repeat split; try done.
  - destruct (fs w !! name) as [[data perm|names perm]|] eqn:Hnd;
      injection Hsem as <- <-; repeat split; try done.
    intros ? [= <-]. by exists perm.
Qed.

Lemma readDirNames_spec name w r w' :
  pathwalk.readDirNames E name w = (r, w') ->
  fs w' = fs w /\ trace w' = call_ReadDir name :: trace w.
Proof.
  intros H. apply syscall_spec in H as [Ht [(errno & _ & -> & Hfs)|[_ Hsem]]].
  - done.
  - destruct (fs w !! name) as [[data perm|names perm]|] eqn:Hnd;
      by injection Hsem as <- <-.
Qed.

Lemma first_free_spec m prefix suffix n tries i name :
  os.first_free E m prefix suffix n tries i = Some name -> m !! name = None.
Proof.
  revert i. induction tries as [|tries IH]; intros i; simpl; [done|].
  destruct (m !! (prefix +:+ rnd E n i +:+ suffix)) eqn:Hl.
  - apply IH.
  - by intros [= <-].
Qed.

Lemma CreateTemp_spec dir pattern w r w' :
  os.CreateTemp E dir pattern w = (r, w') ->
  match r with
  | Err _ => fs w' = fs w
  | Ok f => fs w !! os.Name f = None /\
            fs w' = <[os.Name f := RegularFile [] 384]> (fs w)
  end.
Proof.
  unfold os.CreateTemp. destruct (os.prefixAndSuffix pattern) as [[prefix suffix]|e].
  - intros H. apply syscall_spec in H as [Ht [(errno & _ & -> & Hfs)|[_ Hsem]]].
    + done.
    + destruct (os.first_free _ _ _ _ _ _ _) as [name|] eqn:Hff.
      * injection Hsem as <- <-. split; [|done].
        by apply first_free_spec in Hff.
      * by injection Hsem as <- <-.
  - by intros [= <- <-].
Qed.

Lemma Write_spec f b w r w' data perm :
  os.Write E f b w = (r, w') ->
  fs w !! os.Name f = Some (RegularFile data perm) ->
  exists k, fs w' = <[os.Name f := RegularFile (data ++ k) perm]> (fs w) /\
            (r = None -> k = b).
Proof.
  unfold os.Write. intros H Hnd. rewrite Hnd in H.
  destruct (fault E _ _).
  - injection H as <- <-. by eexists.
  - injection H as <- <-. by eexists.
Qed.

Lemma Close_spec f w r w' : os.Close E f w = (r, w') -> fs w' = fs w.
Proof.
  unfold os.Close. destruct (os.syscall _ _ _ _ _ w) as [r0 w0] eqn:H.
  intros [= <- <-].
  apply syscall_spec in H as [Ht [(errno & _ & -> & Hfs)|[_ Hsem]]]; [done|].
  by injection Hsem as <- <-.
Qed.

Lemma Chmod_spec name mode w r w' data perm :
  os.Chmod E name mode w = (r, w') ->
  fs w !! name = Some (RegularFile data perm) ->
  match r with
  | Some _ => fs w' = fs w
  | None => fs w' = <[name := RegularFile data (Z.land mode fs_mode.settable)]> (fs w)
  end.
Proof.
  unfold os.Chmod. destruct (os.syscall _ _ _ _ _ w) as [r0 w0] eqn:H.
  intros [= <- <-] Hnd.
  apply syscall_spec in H as [Ht [(errno & _ & -> & Hfs)|[_ Hsem]]]; [done|].
  rewrite Hnd in Hsem. by injection Hsem as <- <-.
Qed.

Lemma Rename_spec oldpath newpath w r w' data perm :
  os.Rename E oldpath newpath w = (r, w') ->
  fs w !! oldpath = Some (RegularFile data perm) ->
  match r with
  | Some _ => fs w' = fs w
  | None => (forall names p, fs w !! newpath <> Some (Directory names p)) /\
            fs w' = <[newpath := RegularFile data perm]> (delete oldpath (fs w))
  end.
Proof.
  unfold os.Rename. destruct (os.syscall _ _ _ _ _ w) as [r0 w0] eqn:H.
  intros [= <- <-] Hnd.
  apply syscall_spec in H as [Ht [(errno & _ & -> & Hfs)|[_ Hsem]]]; [done|].
  rewrite Hnd in Hsem.
  destruct (fs w !! newpath) as [[d p|names p]|] eqn:Hnew;
    injection Hsem as <- <-; simpl; try done.
Qed.

Lemma Remove_spec name w r w' :
  os.Remove E name w = (r, w') ->
  (fs w' = fs w /\
     (fs w !! name = None \/ (exists names p, fs w !! name = Some (Directory names p))
      \/ fault E (length (trace w)) (call_Remove name) <> None))
  \/ (fs w' = delete name (fs w)).
Proof.
  unfold os.Remove. destruct (os.syscall _ _ _ _ _ w) as [r0 w0] eqn:H.
  intros [= <- <-].
  apply syscall_spec in H as [Ht [(errno & Hf & -> & Hfs)|[_ Hsem]]].
  - left. split; [done|]. right; right. by rewrite Hf.
  - destruct (fs w !! name) as [[d p|[|n names] p]|] eqn:Hnd;
      injection Hsem as <- <-; eauto 10.
Qed.

End os_facts.

(** ** [write]: the temporary file and the rename *)

Lemma defer_spec {A B} (d : IO B) (body : IO A) w a w' :
  defer d body w = (a, w') -> exists w1 r, body w = (a, w1) /\ d w1 = (r, w').
Proof.
  unfold defer. destruct (body w) as [a0 w1]. destruct (d w1) as [r w2] eqn:Hd.
  intros [= <- <-]. by exists w1, r.
Qed.

Section write_facts.
Variable E : Env.

(** From the write to the rename, starting with the temporary file
    freshly created on top of the files [m]. *)
Lemma write_steps_spec (f : os.File) path contents mode (m : gmap string node)
    w res w' :
  m !! os.Name f = None ->
  fs w = <[os.Name f := RegularFile [] 384]> m ->
  (let* err := os.Write E f contents in
   match err with
   | Some err => ret (Some err)
   | None =>
       let* err := os.Close E f in
       match err with
       | Some err => ret (Some err)
       | None =>
           let* err := os.Chmod E (os.Name f) mode in
           match err with
           | Some err => ret (Some err)
           | None => os.Rename E (os.Name f) path
           end
       end
   end)%io w = (res, w') ->
  match res with
  | Some _ => exists data perm, fs w' = <[os.Name f := RegularFile data perm]> m
  | None =>
      (forall names p, m !! path <> Some (Directory names p)) /\
      fs w' = <[path := RegularFile contents (Z.land mode fs_mode.settable)]> m
  end.
Proof.
  intros Hfree Hfs. unfold bind at 1.
  destruct (os.Write E f contents w) as [r1 w1] eqn:H1.
  eapply Write_spec in H1 as (k & Hfs1 & Hk);
    [|rewrite Hfs; apply lookup_insert_eq].
  rewrite Hfs, insert_insert_eq in Hfs1. simpl in Hfs1.
  destruct r1 as [e|]; [intros [= <- <-]; eauto|].
  rewrite (Hk eq_refl) in Hfs1. clear Hk k.
  unfold bind at 1. destruct (os.Close E f w1) as [r2 w2] eqn:H2.
  apply Close_spec in H2. rewrite Hfs1 in H2.
  destruct r2 as [e|]; [intros [= <- <-]; eauto|].
  unfold bind at 1. destruct (os.Chmod E (os.Name f) mode w2) as [r3 w3] eqn:H3.
  eapply Chmod_spec in H3; [|rewrite H2; apply lookup_insert_eq].
  rewrite H2, ?insert_insert_eq in H3.
  destruct r3 as [e|]; [intros [= <- <-]; eauto|].
  intros H4. eapply Rename_spec in H4; [|rewrite H3; apply lookup_insert_eq].
  destruct res as [e|].
  - rewrite H4, H3. eauto.
  - destruct H4 as [Hnodir H4]. rewrite H4, H3.
    rewrite delete_insert_id by done. split; [|done].
    intros names p Hp. apply (Hnodir names p). rewrite H3.
    rewrite lookup_insert_ne; [done|]. intros Heq. rewrite Heq in Hfree. congruence.
Qed.

(** What [write] leaves behind.  A failed call leaves the files as they
    were, but for the temporary file when its removal failed too; a
    successful call replaces the contents of [path] and nothing else. *)
Lemma write_leaves path contents w res w' :
  format.write E path contents w = (res, w') ->
  match res with
  | None =>
      exists data perm, fs w !! path = Some (RegularFile data perm) /\
        fs w' = <[path := RegularFile contents (Z.land perm fs_mode.settable)]> (fs w)
  | Some _ =>
      fs w' = fs w \/
      exists tmp data perm n, tmp <> path /\ fs w !! tmp = None /\
        fs w' = <[tmp := RegularFile data perm]> (fs w) /\
        fault E n (call_Remove tmp) <> None
  end.
Proof.
  unfold format.write. unfold bind at 1.
  destruct (os.Stat E path w) as [r1 w1] eqn:H1.
  apply Stat_spec in H1 as (Hfs1 & _ & Hfi).
  destruct r1 as [fi|e]; [|intros [= <- <-]; by left].
  destruct (Hfi fi eq_refl) as (nd & Hnd & Hmode). clear Hfi.
  unfold bind at 1.
  destruct (os.CreateTemp E _ _ w1) as [r2 w2] eqn:H2.
  apply CreateTemp_spec in H2. rewrite Hfs1 in H2.
  destruct r2 as [f|e]; [|intros [= <- <-]; left; congruence].
  destruct H2 as [Hfree Hfs2].
  assert (Hne : os.Name f <> path) by (intros Heq; congruence).
  intros H. apply defer_spec in H as (w3 & r4 & Hb & H4).
  apply (write_steps_spec _ _ _ _ (fs w)) in Hb; [|done..].
  apply Remove_spec in H4.
  destruct res as [e|].
  - destruct Hb as (data & perm & Hfs3).
    destruct H4 as [[H4 Hwhy]|H4].
    + right. exists (os.Name f), data, perm, (length (trace w3)).
      repeat split; try done; [congruence|].
      destruct Hwhy as [Hc|[(names & p & Hc)|Hc]]; [| |done];
        rewrite Hfs3, lookup_insert_eq in Hc; done.
    + left. rewrite H4, Hfs3. by apply delete_insert_id.
  - destruct Hb as [Hnodir Hfs3].
    destruct nd as [data perm|names p]; [|by destruct (Hnodir names p)].
    exists data, perm. split; [done|].
    assert (Hgone : fs w3 !! os.Name f = None)
      by (rewrite Hfs3, lookup_insert_ne; done).
    assert (fs w' = fs w3) as ->.
    { destruct H4 as [[H4 _]|H4]; [done|]. rewrite H4. by apply delete_id. }
    rewrite Hfs3, Hmode. simpl. by rewrite settable_idem.
Qed.

Lemma write_spec path contents w res w' :
  format.write E path contents w = (res, w') ->
  match res with
  | None =>
      exists data perm, fs w !! path = Some (RegularFile data perm) /\
        fs w' = <[path := RegularFile contents (Z.land perm fs_mode.settable)]> (fs w)
  | Some _ =>
      fs w' = fs w \/
      exists tmp nd n, tmp <> path /\ fs w !! tmp = None /\
        fs w' = <[tmp := nd]> (fs w) /\ fault E n (call_Remove tmp) <> None
  end.
Proof.
  intros H. apply write_leaves in H. destruct res as [e|]; [|done].
  destruct H as [H|(tmp & data & perm & n & H)]; [by left|].
  right. by exists tmp, (RegularFile data perm), n.
Qed.

End write_facts.

(** ** [format]: read, transform, compare, write *)
Section format_facts.
Variable E : Env.

Lemma format_unfold f path w :
  format.format E f path w =
  match os.ReadFile E path w with
  | (Err err, w1) => (Some err, w1)
  | (Ok original, w1) =>
      let w2 := {| fs := fs w1;
                   trace := call_Format path original :: trace w1 |} in
      match swag.Format (format.formatter f) path original with
      | Err err => (Some err, w2)
      | Ok formatted =>
          if bytes.Equal original formatted then (None, w2)
          else format.write E path formatted w2
      end
  end.
Proof.
  unfold format.format. unfold bind at 1.
  destruct (os.ReadFile E path w) as [[original|e] w1]; [|done].
  rewrite bytes_copy_make. unfold bind at 1, format.Formatter_Format. simpl.
  destruct (swag.Format _ _ _) as [formatted|e]; [|done].
  by destruct (bytes.Equal original formatted).
Qed.

Lemma ReadFile_regular path w data perm :
  fault E (length (trace w)) (call_ReadFile path) = None ->
  fs w !! path = Some (RegularFile data perm) ->
  os.ReadFile E path w
  = (Ok data, {| fs := fs w; trace := call_ReadFile path :: trace w |}).
Proof. intros Hf Hnd. unfold os.ReadFile, os.syscall. by rewrite Hf, Hnd. Qed.

Lemma ReadFile_directory path w names perm :
  fs w !! path = Some (Directory names perm) ->
  exists op errno,
    os.ReadFile E path w
    = (Err (PathError op path errno),
       {| fs := fs w; trace := call_ReadFile path :: trace w |}).
Proof.
  intros Hnd. unfold os.ReadFile, os.syscall. rewrite Hnd.
  destruct (fault E _ _); eauto.
Qed.

End format_facts.

(** ** The atomic replacement *)

(** C1.  A call of [write] that fails, at whichever of its steps (stat,
    create the temporary file, write, close, chmod, rename), leaves the
    target as it was, contents and permission bits.  When the failures are
    confined to those steps, so that the removal of the temporary file is
    not itself made to fail, a failed call leaves every file as it was, and
    any call, failed or not, leaves no file behind under another name than
    the target's. *)
Theorem write_is_atomic (E : Env) (path : string) (contents : list byte) (w : World) :
  let r := format.write E path contents w in
  (r.1 <> None -> fs r.2 !! path = fs w !! path) /\
  ((forall n name, fault E n (call_Remove name) = None) ->
   (r.1 <> None -> fs r.2 = fs w) /\
   (forall name, name <> path -> fs r.2 !! name = fs w !! name)).
Proof.
  intros r. subst r.
  destruct (format.write E path contents w) as [res w'] eqn:H. simpl.
  apply write_spec in H. destruct res as [e|].
  - destruct H as [H|(tmp & nd & n & Hne & Hfree & H & Hfault)].
    + rewrite H. repeat split; intros; done.
    + split.
      * intros _. rewrite H. by apply lookup_insert_ne.
      * intros Hrm. by destruct (Hfault (Hrm n tmp)).
  - destruct H as (data & perm & Hnd & H). split; [done|].
    intros _. split; [done|]. intros name Hname. rewrite H.
    by apply lookup_insert_ne.
Qed.

(** A write that fails half way (the disk is full after two bytes): the
    call returns the error and the files are as before. *)
Lemma write_is_atomic_witness :
  (format.write sample.disk_full "proj/main.go" (sample.bs "main!") sample.world).1
  = Some (PathError "write" "proj/main.go123" ENOSPC)
  /\ fs (format.write sample.disk_full "proj/main.go" (sample.bs "main!")
           sample.world).2 = fs sample.world.
Proof.
  split; [vm_compute; reflexivity|].
  apply (write_is_atomic sample.disk_full "proj/main.go" (sample.bs "main!")
           sample.world).
  - intros n name. reflexivity.
  - vm_compute. discriminate.
Defined.

(** C2.  A file that is rewritten, its transformed bytes differing from
    the original ones, has after the replacement the mode [os.Stat]
    reported for it before, hence the same permission bits, and the new
    contents. *)
Theorem rewritten_file_keeps_mode (E : Env) (f : format.Format) (path : string)
    (w : World) (original formatted : list byte) (perm : Z) :
  fs w !! path = Some (RegularFile original perm) ->
  swag.Format (format.formatter f) path original = Ok formatted ->
  formatted <> original ->
  (format.format E f path w).1 = None ->
  exists perm',
    fs (format.format E f path w).2 !! path = Some (RegularFile formatted perm') /\
    node_Mode (RegularFile formatted perm') = node_Mode (RegularFile original perm) /\
    fs_mode.Perm (node_Mode (RegularFile formatted perm'))
    = fs_mode.Perm (node_Mode (RegularFile original perm)).
Proof.
  intros Hnd Hfmt Hdiff. rewrite format_unfold.
  destruct (os.ReadFile E path w) as [[data|e] w1] eqn:Hr; [|done].
  apply ReadFile_spec in Hr as (Hfs1 & _ & Hdata).
  destruct (Hdata data eq_refl) as (perm0 & Hnd0).
  assert (data = original) as -> by congruence.
  cbv zeta. rewrite Hfmt.
  destruct (bytes.Equal original formatted) eqn:Heq.
  { apply bytes_Equal_iff in Heq. congruence. }
  destruct (format.write E path formatted _) as [res w2] eqn:Hw. simpl.
  intros ->. apply write_spec in Hw as (data' & perm' & Hnd' & Hfs2).
  simpl in Hnd', Hfs2. rewrite Hfs1 in Hnd', Hfs2.
  assert (perm' = perm) as -> by congruence.
  exists (Z.land perm fs_mode.settable).
  rewrite Hfs2, lookup_insert_eq. simpl. by rewrite settable_idem.
Qed.

(** [proj/main.go], mode 0644, is rewritten and is still 0644. *)
Lemma rewritten_file_keeps_mode_witness :
  exists perm',
    fs (format.format sample.quiet (format.New sample.bang) "proj/main.go"
          sample.world).2 !! "proj/main.go"
    = Some (RegularFile (sample.bs "main!") perm') /\
    node_Mode (RegularFile (sample.bs "main!") perm')
    = node_Mode (RegularFile (sample.bs "main") 420) /\
    fs_mode.Perm (node_Mode (RegularFile (sample.bs "main!") perm'))
    = fs_mode.Perm (node_Mode (RegularFile (sample.bs "main") 420)).
Proof.
  apply (rewritten_file_keeps_mode sample.quiet (format.New sample.bang)
           "proj/main.go" sample.world (sample.bs "main") (sample.bs "main!") 420).
  - vm_compute. reflexivity.
  - vm_compute. reflexivity.
  - vm_compute. discriminate.
  - vm_compute. reflexivity.
Defined.

(** C3.  The change gate is exact byte equality: [bytes.Equal] holds of
    the original and the transformed bytes iff they are the same sequence.
    When they are, [format] returns without an error after the read and
    the formatter call, and the files are untouched; when they differ, it
    goes on to [write] the transformed bytes. *)
Theorem change_gate (E : Env) (f : format.Format) (path : string) (w : World)
    (original formatted : list byte) (perm : Z) :
  fault E (length (trace w)) (call_ReadFile path) = None ->
  fs w !! path = Some (RegularFile original perm) ->
  swag.Format (format.formatter f) path original = Ok formatted ->
  let w1 := {| fs := fs w;
               trace := call_Format path original :: call_ReadFile path :: trace w |} in
  (bytes.Equal original formatted = true <-> original = formatted) /\
  (original = formatted -> format.format E f path w = (None, w1)) /\
  (original <> formatted ->
   format.format E f path w = format.write E path formatted w1).
Proof.
  intros Hfault Hnd Hfmt w1. split; [apply bytes_Equal_iff|].
  rewrite format_unfold, (ReadFile_regular E path w original perm Hfault Hnd).
  cbv zeta. simpl. rewrite Hfmt. split.
  - intros Heq. apply bytes_Equal_iff in Heq. by rewrite Heq.
  - intros Hne. apply bytes_Equal_false in Hne. by rewrite Hne.
Qed.

(** [proj/sub/a.go] is formatted already: two calls, no write. *)
Lemma change_gate_witness :
  format.format sample.quiet (format.New sample.bang) "proj/sub/a.go" sample.world
  = (None, {| fs := fs sample.world;
              trace := [call_Format "proj/sub/a.go" (sample.bs "a!");
                        call_ReadFile "proj/sub/a.go"] |}).
Proof.
  apply (change_gate sample.quiet (format.New sample.bang) "proj/sub/a.go"
           sample.world (sample.bs "a!") (sample.bs "a!") 384).
  - reflexivity.
  - vm_compute. reflexivity.
  - vm_compute. reflexivity.
  - reflexivity.
Defined.

(** ** [Build]: the roots are looked up first *)

Lemma events_app (w w' : World) (evs : list call) :
  trace w' = evs ++ trace w -> events w w' = evs.
Proof.
  intros H. unfold events. rewrite H, length_app, Nat.add_sub.
  clear H. induction evs as [|c evs IH]; simpl; [by destruct (trace w)|].
  by rewrite IH.
Qed.

Section Build_facts.
Variable E : Env.

Lemma Build_roots_spec f searchDirs w err f' w' :
  format.Build_roots E f searchDirs w = ((err, f'), w') ->
  fs w' = fs w /\
  exists evs, trace w' = evs ++ trace w /\ Forall is_Stat evs.
Proof.
  revert f w. induction searchDirs as [|searchDir rest IH]; intros f w; simpl.
  - intros [= <- <- <-]. split; [done|]. by exists [].
  - unfold bind at 1. destruct (os.Stat E searchDir w) as [r w1] eqn:Hs.
    apply Stat_spec in Hs as (Hfs & Ht & _).
    assert (Hone : exists evs, trace w1 = evs ++ trace w /\ Forall is_Stat evs).
    { exists [call_Stat searchDir]. split; [done|].
      constructor; [by exists searchDir | constructor]. }
    destruct (os.IsNotExist (result_err r)).
    + by intros [= <- <- <-].
    + intros H. apply IH in H as (Hfs' & evs & Ht' & Hall).
      split; [congruence|]. exists (evs ++ [call_Stat searchDir]).
      rewrite Ht', Ht, <- app_assoc. split; [done|].
      apply Forall_app. split; [done|].
      constructor; [by exists searchDir | constructor].
Qed.



End Build_facts.

(** C4, as stated, fails for a root that does not exist but of which
    [os.Stat] reports something else than that: [proj/main.go/x] lies below
    the regular file [proj/main.go], the error is [ENOTDIR], the check of
    the roots passes, [Build] walks [proj], rewrites [proj/main.go], and
    then does not return an error: it panics in the visitor, which
    [filepath.Walk] hands the root with a nil [FileInfo]. *)
Lemma Build_missing_root_counterexample :
  let config := sample.root "proj,proj/main.go/x" in
  let r := format.Build sample.quiet 10 (format.New sample.bang) config sample.world in
  In "proj/main.go/x" (strings.Split (format.SearchDir config) ",") /\
  fs sample.world !! "proj/main.go/x" = None /\
  (os.Stat sample.quiet "proj/main.go/x" sample.world).1
  = Err (PathError "stat" "proj/main.go/x" ENOTDIR) /\
  r.1.1 = Panic "runtime error: invalid memory address or nil pointer dereference" /\
  In (call_walkFn "proj/main.go" (Some false)) (events sample.world r.2) /\
  fs r.2 !! "proj/main.go" = Some (RegularFile (sample.bs "main!") 420) /\
  fs r.2 <> fs sample.world.
Proof.
  cbv zeta. split; [vm_compute; tauto|]. split; [vm_compute; reflexivity|].
  split; [vm_compute; reflexivity|]. split; [vm_compute; reflexivity|].
  split; [vm_compute; tauto|]. split; [vm_compute; reflexivity|].
  intros Heq. apply (f_equal (fun m => m !! "proj/main.go")) in Heq.
  vm_compute in Heq. discriminate.
Qed.



(** ** The exclusion rules *)

Lemma excluded_iff (f : format.Format) (path : string) :
  format.excluded f path = true <-> format.exclude f !! path = Some true.
Proof.
  unfold format.excluded. destruct (format.exclude f !! path) as [[]|]; simpl;
    split; congruence.
Qed.

(** [excludeDir] in the words of its definition. *)
Lemma excludeDir_iff (f : format.Format) (path : string) :
  format.excludeDir f path = true <->
  format.exclude f !! path = Some true \/
  (String.get 0 (filepath.Base path) = Some "."%char /\
   (1 < String.length (filepath.Base path))%nat).
Proof.
  unfold format.excludeDir.
  rewrite orb_true_iff, andb_true_iff, excluded_iff, Nat.ltb_lt.
  destruct (String.get 0 (filepath.Base path)) as [c|].
  - rewrite Ascii.eqb_eq. intuition congruence.
  - intuition congruence.
Qed.

(** C5.  The rule for hidden directories excludes the parent directory:
    the base name of [".."] begins with a dot and has two characters, so
    [excludeDir] holds of it with nothing in the exclusion set (it does not
    hold of ["."]), and a [Build] whose root is [".."] prunes the root and
    formats none of the files in it. *)
Theorem excludeDir_parent_directory (fm : swag.Formatter) :
  format.excludeDir (format.New fm) ".." = true /\
  format.excludeDir (format.New fm) "../.." = true /\
  format.excludeDir (format.New fm) "." = false /\
  let w := {| fs := {[ ".." := Directory ["a.go"] 493%Z;
                       "../a.go" := RegularFile (sample.bs "a") 420%Z ]};
              trace := [] |} in
  let r := format.Build sample.quiet 10 (format.New fm)
             {| format.SearchDir := ".."; format.Excludes := "";
                format.MainFile := "" |} w in
  r.1.1 = Ret None /\ fs r.2 = fs w /\
  rev (trace r.2) = [call_Stat ".."; call_Lstat ".."; call_ReadDir "..";
                     call_walkFn ".." (Some true)].
Proof.
  repeat split; vm_compute; reflexivity.
Qed.

(** C6.  [excludeFile] holds of a path iff the path is in the exclusion
    set, or its lower-cased form ends in ["_test.go"], or its extension is
    not [".go"].  The visitor, on an entry it does not prune as a
    directory and of which [excludeFile] holds, returns [nil] and leaves
    the world as it was: no call is made, no file is touched. *)
Theorem excludeFile_skips (f : format.Format) (path : string) :
  (format.excludeFile f path = true <->
   format.exclude f !! path = Some true \/
   strings.HasSuffix (strings.ToLower path) "_test.go" = true \/
   filepath.Ext path <> ".go") /\
  (forall (E : Env) (fi : FileInfo) (err : option error) (w : World),
     IsDir fi && format.excludeDir f path = false ->
     format.excludeFile f path = true ->
     format.visit E f path (Some fi) err w = (Ret None, w)).
Proof.
  split.
  - unfold format.excludeFile.
    rewrite !orb_true_iff, negb_true_iff, excluded_iff, String.eqb_neq.
    tauto.
  - intros E fi err w Hdir Hfile. unfold format.visit.
    by rewrite Hdir, Hfile.
Qed.

(** [handler_test.go] and [notes.txt] are skipped. *)
Lemma excludeFile_skips_witness :
  format.visit sample.quiet (format.New sample.bang) "proj/handler_test.go"
    (Some {| Mode := 420 |}) None sample.world = (Ret None, sample.world)
  /\ format.visit sample.quiet (format.New sample.bang) "proj/notes.txt"
       (Some {| Mode := 420 |}) None sample.world = (Ret None, sample.world).
Proof.
  split.
  - apply (excludeFile_skips (format.New sample.bang) "proj/handler_test.go");
      vm_compute; reflexivity.
  - apply (excludeFile_skips (format.New sample.bang) "proj/notes.txt");
      vm_compute; reflexivity.
Defined.

(** C7.  The visitor does not look at the error [filepath.Walk] hands it.
    Called with a nil [FileInfo] (the entry could not be examined), it
    panics; called with a [FileInfo], it does what it does without an
    error.  So a [Build] panics when an entry of the tree cannot be
    examined, and returns [nil] when a directory cannot be listed, its
    entries never visited. *)
Theorem visit_drops_walk_error (E : Env) (f : format.Format) (path : string)
    (fi : FileInfo) (err : error) (w : World) :
  format.visit E f path None (Some err) w
  = (Panic "runtime error: invalid memory address or nil pointer dereference", w) /\
  format.visit E f path (Some fi) (Some err) w
  = format.visit E f path (Some fi) None w /\
  (format.Build (sample.denied (sample.lstat_of "proj/main.go")) 10
     (format.New sample.bang) sample.proj sample.world).1.1
  = Panic "runtime error: invalid memory address or nil pointer dereference" /\
  let r := format.Build (sample.denied (sample.readdir_of "proj/sub")) 10
             (format.New sample.bang) sample.proj sample.world in
  r.1.1 = Ret None /\
  In (call_ReadDir "proj/sub") (trace r.2) /\
  ~ In (call_Lstat "proj/sub/a.go") (trace r.2).
Proof.
  split; [reflexivity|]. split; [reflexivity|]. split; [vm_compute; reflexivity|].
  split; [vm_compute; reflexivity|]. split.
  - vm_compute. tauto.
  - vm_compute. intuition discriminate.
Qed.

(** ** The calls of the per-file pipeline *)
Section trace_facts.
Variable E : Env.

Lemma extends_ret {A} (P : call -> Prop) (a : A) : extends P (ret a).
Proof. intros w a' w' [= <- <-]. by exists []. Qed.

Lemma extends_bind {A B} (P : call -> Prop) (m : IO A) (k : A -> IO B) :
  extends P m -> (forall a, extends P (k a)) -> extends P (bind m k).
Proof.
  intros Hm Hk w b w'. unfold bind. destruct (m w) as [a w1] eqn:H1.
  intros H2. apply Hm in H1 as (evs1 & Ht1 & Hall1).
  apply Hk in H2 as (evs2 & Ht2 & Hall2).
  exists (evs2 ++ evs1). rewrite Ht2, Ht1, app_assoc. split; [done|].
  apply Forall_app; by split.
Qed.

Lemma extends_defer {A B} (P : call -> Prop) (d : IO B) (body : IO A) :
  extends P body -> extends P d -> extends P (defer d body).
Proof.
  intros Hb Hd w a w' H. apply defer_spec in H as (w1 & r & H1 & H2).
  apply Hb in H1 as (evs1 & Ht1 & Hall1).
  apply Hd in H2 as (evs2 & Ht2 & Hall2).
  exists (evs2 ++ evs1). rewrite Ht2, Ht1, app_assoc. split; [done|].
  apply Forall_app; by split.
Qed.

Lemma extends_one {A} (P : call -> Prop) (c : call) (m : IO A) :
  P c -> (forall w a w', m w = (a, w') -> trace w' = c :: trace w) ->
  extends P m.
Proof.
  intros Hc Hm w a w' H. exists [c]. split; [by apply Hm in H|].
  by constructor.
Qed.

Lemma extends_syscall {A} (P : call -> Prop) c op name
    (sem : gmap string node -> result A * gmap string node) :
  P c -> extends P (os.syscall E c op name sem).
Proof.
  intros Hc. apply (extends_one P c); [done|].
  intros w a w' H. by apply syscall_spec in H as [Ht _].
Qed.

Lemma extends_dropping {A B} (P : call -> Prop) (m : IO (result A))
    (g : result A -> B) :
  extends P m ->
  extends P (fun w => let '(r, w1) := m w in (g r, w1)).
Proof.
  intros Hm w a w'. destruct (m w) as [r w1] eqn:H. intros [= <- <-].
  by apply Hm in H.
Qed.

Lemma extends_write path contents :
  extends (pipeline_call path) (format.write E path contents).
Proof.
  unfold format.write.
  apply extends_bind; [by apply extends_syscall|]. intros [fi|e];
    [|apply extends_ret].
  apply extends_bind.
  { intros w a w'. unfold os.CreateTemp.
    destruct (os.prefixAndSuffix _) as [[prefix suffix]|e].
    - by apply extends_syscall.
    - apply extends_ret. }
  intros [f|e]; [|apply extends_ret].
  apply extends_defer.
  - apply extends_bind.
    { apply (extends_one _ (call_Write (os.Name f) contents)); [done|].
      intros w a w'. unfold os.Write.
      destruct (fault E _ _); [by intros [= <- <-]|].
      destruct (fs w !! os.Name f) as [[]|]; by intros [= <- <-]. }
    intros [e|]; [apply extends_ret|].
    apply extends_bind;
      [by apply extends_dropping, extends_syscall|].
    intros [e|]; [apply extends_ret|].
    apply extends_bind;
      [by apply extends_dropping, extends_syscall|].
    intros [e|]; [apply extends_ret|].
    by apply extends_dropping, extends_syscall.
  - by apply extends_dropping, extends_syscall.
Qed.

(** The pipeline on [path] reads [path] first, and makes no call of the
    walk. *)
Lemma format_trace f path w r w' :
  format.format E f path w = (r, w') ->
  exists evs, trace w' = evs ++ call_ReadFile path :: trace w /\
              Forall (pipeline_call path) evs.
Proof.
  rewrite format_unfold.
  destruct (os.ReadFile E path w) as [[original|e] w1] eqn:Hr;
    apply ReadFile_spec in Hr as (_ & Ht & _).
  - cbv zeta. destruct (swag.Format _ _ _) as [formatted|e].
    + destruct (bytes.Equal original formatted).
      * intros [= <- <-]. simpl. rewrite Ht.
        exists [call_Format path original]. split; [done|]. by repeat constructor.
      * intros H. apply extends_write in H as (evs & Ht' & Hall).
        simpl in Ht'. rewrite Ht in Ht'.
        exists (evs ++ [call_Format path original]).
        rewrite <- app_assoc. split; [done|].
        apply Forall_app. split; [done|]. by repeat constructor.
    + intros [= <- <-]. simpl. rewrite Ht.
      exists [call_Format path original]. split; [done|]. by repeat constructor.
  - intros [= <- <-]. exists []. by split.
Qed.

End trace_facts.

(** ** The walk *)
Section walk_facts.
Variable E : Env.
Variable f : format.Format.

Lemma pipeline_reads path evs p :
  Forall (pipeline_call path) evs -> In (call_ReadFile p) evs -> p = path.
Proof.
  rewrite List.Forall_forall. intros Hall Hin. exact (Hall _ Hin).
Qed.

Lemma pipeline_visits_nothing path evs dir b :
  Forall (pipeline_call path) evs -> ~ In (call_walkFn dir b) evs.
Proof.
  rewrite List.Forall_forall. intros Hall Hin. exact (Hall _ Hin).
Qed.

Lemma walk_inv_nil out : walk_inv f [] out.
Proof. intros ? []. Qed.

(** A part of the walk is done, after the call [c]; the walk stops there,
    or goes on when that part did not end on the wrapped error. *)
Lemma walk_inv_seq evs1 out1 evs2 out c :
  walk_inv f evs1 out1 ->
  neutral c ->
  (evs2 = [] /\ out = out1) \/
  ((forall e, out1 <> Ret (Some (Wrapped "fmt: " e))) /\ walk_inv f evs2 out) ->
  walk_inv f (evs2 ++ evs1 ++ [c]) out.
Proof.
  intros HA1 Hc Hnext.
  intros dir. rewrite !in_app_iff. intros [Hin|[Hin|[->|[]]]] Hd Hf; [| |done].
  - destruct Hnext as [[-> _]|[_ HA2]]; [done|].
    destruct (HA2 dir Hin Hd Hf) as (e & -> & Hr & Hpe). exists e.
    rewrite !in_app_iff. auto.
  - destruct (HA1 dir Hin Hd Hf) as (e & -> & Hr & Hpe).
    destruct Hnext as [[-> ->]|[Hno _]]; [|by destruct (Hno e)].
    exists e. rewrite !in_app_iff. auto.
Qed.

Lemma invoke_nil path err w :
  pathwalk.invoke (format.visit E f) path None err w
  = (Panic "runtime error: invalid memory address or nil pointer dereference",
     {| fs := fs w; trace := call_walkFn path None :: trace w |}).
Proof. reflexivity. Qed.

(** One call of the visitor. *)
Lemma invoke_visit_spec path info err w out w' :
  pathwalk.invoke (format.visit E f) path (Some info) err w = (out, w') ->
  (IsDir info = true -> is_directory (fs w) path) ->
  exists evs, trace w' = evs ++ trace w /\ walk_inv f evs out /\
    (out = Ret None -> IsDir info = true -> format.excludeDir f path = false).
Proof.
  unfold pathwalk.invoke, format.visit. simpl. intros H Hdir.
  destruct (IsDir info && format.excludeDir f path) eqn:Hx.
  { injection H as <- <-. exists [call_walkFn path (Some (IsDir info))].
    split; [done|]. split; [|done].
    intros dir [[= <- Hd]|[]] Hd' _. rewrite Hd, Hd' in Hx. done. }
  destruct (format.excludeFile f path) eqn:Hf.
  { injection H as <- <-. exists [call_walkFn path (Some (IsDir info))].
    split; [done|]. split.
    - intros dir [[= <- Hd]|[]] _ Hf'. congruence.
    - intros _ Hd. by rewrite Hd in Hx. }
  unfold mbind, lift in H.
  destruct (format.format E f path _) as [r w1] eqn:Hfmt.
  pose proof (format_trace _ _ _ _ _ _ Hfmt) as (evs & Ht & Hall). simpl in Ht.
  assert (Hdirerr : IsDir info = true ->
            exists op errno, r = Some (PathError op path errno)).
  { intros Hd. destruct (Hdir Hd) as (names & perm & Hnd).
    rewrite format_unfold in Hfmt.
    destruct (ReadFile_directory E path
                {| fs := fs w; trace := call_walkFn path (Some (IsDir info)) :: trace w |}
                names perm Hnd) as (op & errno & He).
    rewrite He in Hfmt. injection Hfmt as <- _. by exists op, errno. }
  exists ((evs ++ [call_ReadFile path]) ++ [call_walkFn path (Some (IsDir info))]).
  split; [by rewrite <- !app_assoc; destruct r; injection H as <- <-|].
  split.
  - intros dir. rewrite !in_app_iff.
    intros [[Hin|[[=]|[]]]|[[= <- Hd]|[]]] _ _.
    + by destruct (pipeline_visits_nothing _ _ _ _ Hall Hin).
    + destruct (Hdirerr Hd) as (op & errno & ->). injection H as <- <-.
      exists (PathError op path errno). split; [done|].
      rewrite !in_app_iff. simpl. split; [auto|by exists op, errno].
  - intros -> Hd. destruct (Hdirerr Hd) as (op & errno & ->). done.
Qed.

Lemma Lstat_directory name w fi w' :
  os.Lstat E name w = (Ok fi, w') -> IsDir fi = true -> is_directory (fs w') name.
Proof.
  intros H Hd. apply Lstat_spec in H as (Hfs & _ & Hfi).
  destruct (Hfi fi eq_refl) as (nd & Hnd & Hmode). rewrite Hfs.
  unfold IsDir in Hd. rewrite Hmode in Hd. destruct nd as [data perm|names perm].
  - by rewrite IsDir_RegularFile in Hd.
  - by exists names, perm.
Qed.

Lemma walk_names_spec (rec : string -> FileInfo -> M (option error)) :
  (forall path info w out w',
     rec path info w = (out, w') ->
     (IsDir info = true -> is_directory (fs w) path) ->
     exists evs, trace w' = evs ++ trace w /\ walk_inv f evs out) ->
  forall names path w out w',
    pathwalk.walk_names E (format.visit E f) rec path names w = (out, w') ->
    exists evs, trace w' = evs ++ trace w /\ walk_inv f evs out.
Proof.
  intros Hrec names path. induction names as [|name rest IH]; intros w out w'.
  { intros [= <- <-]. exists []. split; [done|apply walk_inv_nil]. }
  cbn [pathwalk.walk_names].
  set (filename := filepath.Join [path; name]).
  unfold mbind at 1, lift.
  destruct (os.Lstat E filename w) as [r w1] eqn:Hl.
  pose proof (Lstat_spec _ _ _ _ _ Hl) as (_ & Ht1 & _).
  destruct r as [fileInfo|e].
  - unfold mbind at 1.
    destruct (rec filename fileInfo w1) as [out1 w2] eqn:Hr.
    apply Hrec in Hr as (evs1 & Ht2 & Hinv1);
      [|by apply (Lstat_directory _ _ _ _ Hl)].
    assert (Hstop : (out1, w2) = (out, w') ->
              exists evs, trace w' = evs ++ trace w /\ walk_inv f evs out).
    { intros [= <- <-]. exists ([] ++ evs1 ++ [call_Lstat filename]).
      split; [by rewrite Ht2, Ht1; simpl; rewrite <- app_assoc|].
      apply (walk_inv_seq evs1 out1 [] out1 _ Hinv1); [done|by left]. }
    assert (Hgo : (forall e, out1 <> Ret (Some (Wrapped "fmt: " e))) ->
              pathwalk.walk_names E (format.visit E f) rec path rest w2 = (out, w') ->
              exists evs, trace w' = evs ++ trace w /\ walk_inv f evs out).
    { intros Hno Hrest. apply IH in Hrest as (evs2 & Ht3 & Hinv2).
      exists (evs2 ++ evs1 ++ [call_Lstat filename]).
      split; [by rewrite Ht3, Ht2, Ht1, <- !app_assoc|].
      apply (walk_inv_seq evs1 out1 evs2 out _ Hinv1); [done|by right]. }
    destruct out1 as [[e|]|msg|]; [| |by apply Hstop|by apply Hstop].
    + destruct (negb (IsDir fileInfo) || negb (pathwalk.is_SkipDir e)) eqn:Hs.
      * by apply Hstop.
      * apply Hgo. intros e' [= ->]. by rewrite orb_true_r in Hs.
    + by apply Hgo.
  - unfold mbind at 1. rewrite invoke_nil. intros [= <- <-].
    exists [call_walkFn filename None; call_Lstat filename].
    split; [by simpl; rewrite Ht1|].
    intros dir [[=]|[[=]|[]]].
Qed.

Lemma walk_spec fuel path info w out w' :
  pathwalk.walk E (format.visit E f) fuel path info w = (out, w') ->
  (IsDir info = true -> is_directory (fs w) path) ->
  exists evs, trace w' = evs ++ trace w /\ walk_inv f evs out.
Proof.
  revert path info w out w'. induction fuel as [|fuel IH]; intros path info w out w'.
  { intros [= <- <-] _. exists []. split; [done|apply walk_inv_nil]. }
  simpl. destruct (negb (IsDir info)) eqn:Hd.
  { intros H Hdir. apply invoke_visit_spec in H as (evs & Ht & Hinv & _); eauto. }
  apply negb_false_iff in Hd. unfold mbind at 1, lift.
  destruct (pathwalk.readDirNames E path w) as [r w1] eqn:Hrd.
  apply readDirNames_spec in Hrd as (Hfs1 & Ht1).
  unfold mbind at 1.
  destruct (pathwalk.invoke (format.visit E f) path (Some info) (result_err r) w1)
    as [out1 w2] eqn:Hv.
  intros H Hdir.
  apply invoke_visit_spec in Hv as (evs1 & Ht2 & Hinv1 & Hnil);
    [|by rewrite Hfs1].
  assert (Hstop : (out, w') = (out1, w2) ->
            exists evs, trace w' = evs ++ trace w /\ walk_inv f evs out).
  { intros [= -> ->]. exists ([] ++ evs1 ++ [call_ReadDir path]).
    split; [by rewrite Ht2, Ht1; simpl; rewrite <- app_assoc|].
    apply (walk_inv_seq evs1 out1 [] out1 _ Hinv1); [done|by left]. }
  destruct out1 as [[e|]|msg|]; [| |by apply Hstop|by apply Hstop].
  - apply Hstop. by destruct r.
  - destruct r as [names|e]; [|by apply Hstop].
    apply (walk_names_spec _ IH) in H as (evs2 & Ht3 & Hinv2).
    exists (evs2 ++ evs1 ++ [call_ReadDir path]).
    split; [by rewrite Ht3, Ht2, Ht1, <- !app_assoc|].
    apply (walk_inv_seq evs1 (Ret None) evs2 out _ Hinv1); [done|].
    right. by split.
Qed.

Lemma Walk_spec fuel root w out w' :
  pathwalk.Walk E (format.visit E f) fuel root w = (out, w') ->
  exists evs, trace w' = evs ++ trace w /\ walk_inv f evs out.
Proof.
  unfold pathwalk.Walk. unfold mbind at 1, lift.
  destruct (os.Lstat E root w) as [r w1] eqn:Hl.
  pose proof (Lstat_spec _ _ _ _ _ Hl) as (_ & Ht1 & _).
  unfold mbind at 1. destruct r as [info|e].
  - destruct (pathwalk.walk E (format.visit E f) fuel root info w1)
      as [out1 w2] eqn:Hw.
    apply walk_spec in Hw as (evs1 & Ht2 & Hinv1);
      [|by apply (Lstat_directory _ _ _ _ Hl)].
    intros H.
    assert (Hout : w' = w2 /\
              out = match out1 with Ret (Some SkipDir) => Ret None | o => o end).
    { destruct out1 as [[[]|]|msg|]; unfold mret in H; by injection H as <- <-. }
    destruct Hout as [-> Hout].
    exists ([] ++ evs1 ++ [call_Lstat root]).
    split; [by rewrite Ht2, Ht1; simpl; rewrite <- app_assoc|].
    apply (walk_inv_seq evs1 out1 [] out _ Hinv1); [done|].
    destruct out1 as [[[]|]|msg|]; subst out; try (by left).
    right. split; [done|apply walk_inv_nil].
  - rewrite invoke_nil. intros [= <- <-].
    exists [call_walkFn root None; call_Lstat root].
    split; [by simpl; rewrite Ht1|].
    intros dir [[=]|[[=]|[]]].
Qed.

Lemma Build_walk_spec fuel roots w out w' :
  format.Build_walk E fuel f roots w = (out, w') ->
  exists evs, trace w' = evs ++ trace w /\ walk_inv f evs out.
Proof.
  revert w out w'. induction roots as [|root rest IH]; intros w out w'.
  { intros [= <- <-]. exists []. split; [done|apply walk_inv_nil]. }
  cbn [format.Build_walk]. unfold mbind at 1.
  destruct (pathwalk.Walk E (format.visit E f) fuel root w) as [out1 w1] eqn:Hw.
  apply Walk_spec in Hw as (evs1 & Ht1 & HA1).
  assert (Hstop : (out1, w1) = (out, w') ->
            exists evs, trace w' = evs ++ trace w /\ walk_inv f evs out).
  { intros [= <- <-]. by exists evs1. }
  destruct out1 as [[e|]|msg|]; try (by apply Hstop).
  intros H. apply IH in H as (evs2 & Ht2 & HA2).
  exists (evs2 ++ evs1). split; [by rewrite Ht2, Ht1, app_assoc|].
  intros dir. rewrite in_app_iff. intros [Hin|Hin] Hd Hf.
  - destruct (HA2 dir Hin Hd Hf) as (e & -> & Hr & Hpe). exists e.
    rewrite in_app_iff. auto.
  - by destruct (HA1 dir Hin Hd Hf) as (e & [=] & _).
Qed.

(** A directory that [excludeDir] holds of: the walk lists it and calls
    the visitor, which prunes it. *)
Lemma walk_excluded fuel dir info w :
  IsDir info = true ->
  format.excludeDir f dir = true ->
  pathwalk.walk E (format.visit E f) (S fuel) dir info w
  = (Ret (Some SkipDir),
     {| fs := fs w;
        trace := call_walkFn dir (Some true) :: call_ReadDir dir :: trace w |}).
Proof.
  intros Hd Hx. cbn [pathwalk.walk]. rewrite Hd. cbn [negb].
  unfold mbind at 1, lift.
  destruct (pathwalk.readDirNames E dir w) as [r w1] eqn:Hrd.
  apply readDirNames_spec in Hrd as (Hfs1 & Ht1).
  unfold mbind, pathwalk.invoke, format.visit. simpl.
  rewrite Hd, Hx. simpl. rewrite Hfs1, Ht1. by destruct r.
Qed.

End walk_facts.

Lemma Ext_of_go_suffix (path : string) :
  strings.HasSuffix path ".go" = true -> filepath.Ext path = ".go".
Proof.
  unfold strings.HasSuffix, filepath.Ext.
  change (rev (chars ".go")) with ["o"; "g"; "."]%char.
  destruct (rev (chars path)) as [|c1 [|c2 [|c3 r]]];
    cbn [strings.has_prefix]; rewrite ?andb_false_r; try discriminate.
  rewrite !andb_true_iff, !Ascii.eqb_eq.
  by intros (<- & <- & <- & _).
Qed.

(** ** [Build] as a whole *)

Lemma Stat_calls_only (evs : list call) :
  Forall is_Stat evs ->
  (forall p, ~ In (call_ReadFile p) evs) /\
  (forall dir b, ~ In (call_walkFn dir b) evs).
Proof.
  rewrite List.Forall_forall. intros Hall.
  split; [intros p Hin|intros dir b Hin]; by destruct (Hall _ Hin) as [name [=]].
Qed.

Lemma Build_spec (E : Env) (fuel : nat) (f : format.Format)
    (config : format.Config) (w : World) :
  let r := format.Build E fuel f config w in
  exists evs, trace r.2 = evs ++ trace w /\ walk_inv r.1.2 evs r.1.1.
Proof.
  unfold format.Build.
  destruct (format.Build_roots E f _ w) as [[err f1] w1] eqn:Hr.
  apply Build_roots_spec in Hr as (_ & evs0 & Ht0 & Hall0).
  apply Stat_calls_only in Hall0 as [Hnoread Hnovisit].
  destruct err as [e|].
  - simpl. exists evs0. split; [done|].
    intros dir Hin. by destruct (Hnovisit dir (Some true)).
  - destruct (format.Build_walk E fuel _ _ w1) as [out w2] eqn:Hw.
    apply Build_walk_spec in Hw as (evs1 & Ht1 & HA). simpl.
    exists (evs1 ++ evs0). split; [by rewrite Ht1, Ht0, app_assoc|].
    intros dir. rewrite in_app_iff. intros [Hin|Hin] Hd Hf;
      [|by destruct (Hnovisit dir (Some true))].
    destruct (HA dir Hin Hd Hf) as (e & -> & Hr & Hpe). exists e.
    rewrite in_app_iff. auto.
Qed.

(** ** What one run of the file pipeline does to the files *)
Section pipeline_effect.
Variable E : Env.

(** The three ways [format] can leave the files: as they were; as they
    were but for a temporary file whose removal failed; with [path]
    replaced by new contents under its old mode. *)
Lemma format_effect f path w r w' :
  format.format E f path w = (r, w') ->
  fs w' = fs w \/
  (r <> None /\ exists tmp nd n, tmp <> path /\ fs w !! tmp = None /\
     fs w' = <[tmp := nd]> (fs w) /\ fault E n (call_Remove tmp) <> None) \/
  (r = None /\ exists data perm contents,
     fs w !! path = Some (RegularFile data perm) /\
     fs w' = <[path := RegularFile contents (Z.land perm fs_mode.settable)]> (fs w)).
Proof.
  rewrite format_unfold.
  destruct (os.ReadFile E path w) as [[original|e] w1] eqn:Hr;
    apply ReadFile_spec in Hr as (Hfs1 & _ & _).
  - cbv zeta. destruct (swag.Format _ _ _) as [formatted|e].
    + destruct (bytes.Equal original formatted).
      * intros [= <- <-]. by left.
      * intros H. apply write_spec in H. simpl in H. rewrite Hfs1 in H.
        destruct r as [e|].
        -- destruct H as [H|(tmp & nd & n & H)]; [by left|].
           right; left. split; [done|]. by exists tmp, nd, n.
        -- destruct H as (data & perm & Hnd & H). right; right.
           split; [done|]. by exists data, perm, formatted.
    + intros [= <- <-]. by left.
  - intros [= <- <-]. by left.
Qed.

(** [format] makes no directory and changes none. *)
Lemma format_directories f path w r w' :
  format.format E f path w = (r, w') -> directories_from (fs w) (fs w').
Proof.
  rewrite format_unfold.
  destruct (os.ReadFile E path w) as [[original|e] w1] eqn:Hr;
    apply ReadFile_spec in Hr as (Hfs1 & _ & _).
  - cbv zeta. destruct (swag.Format _ _ _) as [formatted|e].
    + destruct (bytes.Equal original formatted).
      * intros [= <- <-] p names perm. simpl. by rewrite Hfs1.
      * intros H. apply write_leaves in H. simpl in H. rewrite Hfs1 in H.
        intros p names perm Hp. destruct r as [e|].
        -- destruct H as [H|(tmp & data & perm0 & n & _ & _ & H & _)];
             rewrite H in Hp; [done|].
           destruct (decide (tmp = p)) as [->|Hne].
           ++ by rewrite lookup_insert_eq in Hp.
           ++ by rewrite lookup_insert_ne in Hp.
        -- destruct H as (data & perm0 & _ & H). rewrite H in Hp.
           destruct (decide (path = p)) as [->|Hne].
           ++ by rewrite lookup_insert_eq in Hp.
           ++ by rewrite lookup_insert_ne in Hp.
    + intros [= <- <-] p names perm. simpl. by rewrite Hfs1.
  - intros [= <- <-] p names perm. by rewrite Hfs1.
Qed.

(** The calls of [write], by what they name. *)
Lemma extends_write_on path contents :
  extends (pipeline_on path) (format.write E path contents).
Proof.
  unfold format.write.
  apply extends_bind; [by apply extends_syscall|]. intros [fi|e];
    [|apply extends_ret].
  apply extends_bind.
  { intros w a w'. unfold os.CreateTemp.
    destruct (os.prefixAndSuffix _) as [[prefix suffix]|e].
    - by apply extends_syscall.
    - apply extends_ret. }
  intros [f|e]; [|apply extends_ret].
  apply extends_defer.
  - apply extends_bind.
    { apply (extends_one _ (call_Write (os.Name f) contents)); [done|].
      intros w a w'. unfold os.Write.
      destruct (fault E _ _); [by intros [= <- <-]|].
      destruct (fs w !! os.Name f) as [[]|]; by intros [= <- <-]. }
    intros [e|]; [apply extends_ret|].
    apply extends_bind; [by apply extends_dropping, extends_syscall|].
    intros [e|]; [apply extends_ret|].
    apply extends_bind; [by apply extends_dropping, extends_syscall|].
    intros [e|]; [apply extends_ret|].
    by apply extends_dropping, extends_syscall.
  - by apply extends_dropping, extends_syscall.
Qed.

Lemma format_trace_on f path w r w' :
  format.format E f path w = (r, w') ->
  exists evs, trace w' = evs ++ call_ReadFile path :: trace w /\
              Forall (pipeline_on path) evs.
Proof.
  rewrite format_unfold.
  destruct (os.ReadFile E path w) as [[original|e] w1] eqn:Hr;
    apply ReadFile_spec in Hr as (_ & Ht & _).
  - cbv zeta. destruct (swag.Format _ _ _) as [formatted|e].
    + destruct (bytes.Equal original formatted).
      * intros [= <- <-]. simpl. rewrite Ht.
        exists [call_Format path original]. split; [done|]. by repeat constructor.
      * intros H. apply extends_write_on in H as (evs & Ht' & Hall).
        simpl in Ht'. rewrite Ht in Ht'.
        exists (evs ++ [call_Format path original]).
        rewrite <- app_assoc. split; [done|].
        apply Forall_app. split; [done|]. by repeat constructor.
    + intros [= <- <-]. simpl. rewrite Ht.
      exists [call_Format path original]. split; [done|]. by repeat constructor.
  - intros [= <- <-]. exists []. by split.
Qed.

(** A call of the visitor either makes no call of its own, or runs the
    pipeline on a path that [excludeFile] does not hold of. *)
Lemma visit_effect f path info err w out w' :
  pathwalk.invoke (format.visit E f) path info err w = (out, w') ->
  (fs w' = fs w /\ trace w' = call_walkFn path (IsDir <$> info) :: trace w) \/
  exists w0 r, fs w0 = fs w /\ format.format E f path w0 = (r, w') /\
    format.excludeFile f path = false /\
    trace w0 = call_walkFn path (IsDir <$> info) :: trace w.
Proof.
  unfold pathwalk.invoke, format.visit. destruct info as [fi|]; simpl.
  - destruct (IsDir fi && format.excludeDir f path); [intros [= <- <-]; by left|].
    destruct (format.excludeFile f path) eqn:Hf; [intros [= <- <-]; by left|].
    unfold mbind, lift.
    destruct (format.format E f path _) as [r w1] eqn:Hfmt.
    intros H. assert (w' = w1) as -> by (by destruct r; injection H as <- <-).
    right.
    exists {| fs := fs w; trace := call_walkFn path (Some (IsDir fi)) :: trace w |}, r.
    by repeat split.
  - intros [= <- <-]. by left.
Qed.

End pipeline_effect.

(** ** Pruning *)
Section walk_reach.
Variable E : Env.
Variable f : format.Format.
Variable m : gmap string node.

Lemma reached_trans a b c : reached m f a b -> reached m f b c -> reached m f a c.
Proof. intros Hab Hbc. induction Hbc; [done|by eapply reached_entry]. Qed.

Lemma reached_below path names perm name p :
  m !! path = Some (Directory names perm) ->
  In name names ->
  format.excludeDir f path = false ->
  reached m f (filepath.Join [path; name]) p -> reached m f path p.
Proof.
  intros Hnd Hin Hx. apply reached_trans.
  by apply (reached_entry m f path path names perm name); [constructor|..].
Qed.

Lemma reads_reached_nil root : reads_reached m f root [].
Proof. intros p []. Qed.

Lemma reads_reached_app root evs1 evs2 :
  reads_reached m f root evs1 -> reads_reached m f root evs2 ->
  reads_reached m f root (evs2 ++ evs1).
Proof. intros H1 H2 p. rewrite in_app_iff. intros [Hin|Hin]; auto. Qed.

Lemma reads_reached_neutral root c : neutral c -> reads_reached m f root [c].
Proof. intros Hc p [->|[]]. done. Qed.

(** What [readDirNames] returns are names the directory lists. *)
Lemma readDirNames_listing name w names w' :
  pathwalk.readDirNames E name w = (Ok names, w') ->
  exists names0 perm, fs w !! name = Some (Directory names0 perm) /\
    forall n, In n names -> In n names0.
Proof.
  intros H. apply syscall_spec in H as [_ [(errno & _ & [=] & _)|[_ Hsem]]].
  destruct (fs w !! name) as [[data perm|names0 perm]|]; try done.
  injection Hsem as <- _. exists names0, perm. split; [done|].
  intros n Hn. apply list_elem_of_In. apply list_elem_of_In in Hn.
  by rewrite merge_sort_Permutation in Hn.
Qed.

(** The visitor returns [nil] on a directory only when [excludeDir] does
    not hold of it. *)
Lemma invoke_visit_nil path info err w w' :
  pathwalk.invoke (format.visit E f) path (Some info) err w = (Ret None, w') ->
  IsDir info = true -> format.excludeDir f path = false.
Proof.
  unfold pathwalk.invoke, format.visit. simpl. intros H Hd. rewrite Hd in H.
  by destruct (format.excludeDir f path).
Qed.

(** A call of the visitor reads no file but the one it is called on. *)
Lemma invoke_visit_reach path info err w out w' :
  pathwalk.invoke (format.visit E f) path info err w = (out, w') ->
  directories_from m (fs w) ->
  exists evs, trace w' = evs ++ trace w /\ reads_reached m f path evs /\
    directories_from m (fs w').
Proof.
  intros H Hdirs.
  apply visit_effect in H as [[Hfs Ht]|(w0 & r & Hfs & H & _ & Ht0)].
  - exists [call_walkFn path (IsDir <$> info)]. split; [done|]. split.
    + intros p [[=]|[]].
    + by rewrite Hfs.
  - pose proof (format_trace_on _ _ _ _ _ _ H) as (evs & Ht & Hall).
    apply format_directories in H. rewrite Hfs in H.
    exists (evs ++ [call_ReadFile path; call_walkFn path (IsDir <$> info)]).
    split; [by rewrite Ht, Ht0, <- app_assoc|]. split.
    + intros p. rewrite in_app_iff. intros [Hin|[[= <-]|[[=]|[]]]].
      * rewrite List.Forall_forall in Hall. rewrite (Hall _ Hin). constructor.
      * constructor.
    + intros p names perm Hp. auto.
Qed.

Lemma walk_names_reach (rec : string -> FileInfo -> M (option error)) :
  (forall path info w out w',
     rec path info w = (out, w') ->
     directories_from m (fs w) ->
     exists evs, trace w' = evs ++ trace w /\ reads_reached m f path evs /\
       directories_from m (fs w')) ->
  forall names0 perm path,
    m !! path = Some (Directory names0 perm) ->
    format.excludeDir f path = false ->
    forall names w out w',
      (forall n, In n names -> In n names0) ->
      pathwalk.walk_names E (format.visit E f) rec path names w = (out, w') ->
      directories_from m (fs w) ->
      exists evs, trace w' = evs ++ trace w /\ reads_reached m f path evs /\
        directories_from m (fs w').
Proof.
  intros Hrec names0 perm path Hnd Hx names.
  induction names as [|name rest IH]; intros w out w' Hsub.
  { intros [= <- <-] Hdirs. exists []. split; [done|].
    split; [apply reads_reached_nil|done]. }
  cbn [pathwalk.walk_names]. set (filename := filepath.Join [path; name]).
  assert (Hup : forall evs, reads_reached m f filename evs ->
                            reads_reached m f path evs).
  { intros evs Hevs p Hin. apply (reached_below path names0 perm name); auto.
    apply Hsub. by left. }
  assert (Hrest : forall n, In n rest -> In n names0)
    by (intros n Hn; apply Hsub; by right).
  unfold mbind at 1, lift.
  destruct (os.Lstat E filename w) as [r w1] eqn:Hl.
  apply Lstat_spec in Hl as (Hfs1 & Ht1 & _). intros H Hdirs.
  assert (Hone : reads_reached m f path [call_Lstat filename])
    by (by apply reads_reached_neutral).
  destruct r as [fileInfo|e]; unfold mbind at 1 in H.
  - destruct (rec filename fileInfo w1) as [out1 w2] eqn:Hr.
    apply Hrec in Hr as (evs1 & Ht2 & Hreads1 & Hdirs2); [|by rewrite Hfs1].
    assert (Hstop : (out1, w2) = (out, w') ->
              exists evs, trace w' = evs ++ trace w /\ reads_reached m f path evs /\
                directories_from m (fs w')).
    { intros [= <- <-]. exists (evs1 ++ [call_Lstat filename]).
      split; [by rewrite Ht2, Ht1, <- app_assoc|]. split; [|done].
      apply reads_reached_app; auto. }
    assert (Hgo :
              pathwalk.walk_names E (format.visit E f) rec path rest w2 = (out, w') ->
              exists evs, trace w' = evs ++ trace w /\ reads_reached m f path evs /\
                directories_from m (fs w')).
    { intros Hw. apply IH in Hw as (evs2 & Ht3 & Hreads2 & Hdirs3); [|done..].
      exists (evs2 ++ evs1 ++ [call_Lstat filename]).
      split; [by rewrite Ht3, Ht2, Ht1, <- !app_assoc|]. split; [|done].
      apply reads_reached_app; [|done]. apply reads_reached_app; auto. }
    destruct out1 as [[e|]|msg|]; [| |by apply Hstop|by apply Hstop].
    + destruct (negb (IsDir fileInfo) || negb (pathwalk.is_SkipDir e)).
      * by apply Hstop.
      * by apply Hgo.
    + by apply Hgo.
  - rewrite invoke_nil in H. injection H as <- <-.
    exists [call_walkFn filename None; call_Lstat filename].
    split; [by simpl; rewrite Ht1|]. split; [|by simpl; rewrite Hfs1].
    intros p [[=]|[[=]|[]]].
Qed.

Lemma walk_reach fuel path info w out w' :
  pathwalk.walk E (format.visit E f) fuel path info w = (out, w') ->
  directories_from m (fs w) ->
  exists evs, trace w' = evs ++ trace w /\ reads_reached m f path evs /\
    directories_from m (fs w').
Proof.
  revert path info w out w'. induction fuel as [|fuel IH]; intros path info w out w'.
  { intros [= <- <-] Hdirs. exists []. split; [done|].
    split; [apply reads_reached_nil|done]. }
  cbn [pathwalk.walk]. destruct (negb (IsDir info)) eqn:Hd.
  { apply invoke_visit_reach. }
  apply negb_false_iff in Hd. unfold mbind at 1, lift.
  destruct (pathwalk.readDirNames E path w) as [r w1] eqn:Hrd.
  pose proof (readDirNames_spec _ _ _ _ _ Hrd) as (Hfs1 & Ht1).
  unfold mbind at 1.
  destruct (pathwalk.invoke (format.visit E f) path (Some info) (result_err r) w1)
    as [out1 w2] eqn:Hv.
  intros H Hdirs.
  pose proof (invoke_visit_reach _ _ _ _ _ _ Hv) as (evs1 & Ht2 & Hreads1 & Hdirs2);
    [by rewrite Hfs1|].
  assert (Hone : reads_reached m f path [call_ReadDir path])
    by (by apply reads_reached_neutral).
  assert (Hstop : (out, w') = (out1, w2) ->
            exists evs, trace w' = evs ++ trace w /\ reads_reached m f path evs /\
              directories_from m (fs w')).
  { intros [= -> ->]. exists (evs1 ++ [call_ReadDir path]).
    split; [by rewrite Ht2, Ht1, <- app_assoc|]. split; [|done].
    by apply reads_reached_app. }
  destruct out1 as [[e|]|msg|]; [| |by apply Hstop|by apply Hstop].
  - apply Hstop. by destruct r.
  - destruct r as [names|e]; [|by apply Hstop].
    apply readDirNames_listing in Hrd as (names0 & perm & Hnd & Hsub).
    apply Hdirs in Hnd.
    apply (walk_names_reach _ IH names0 perm path Hnd
             (invoke_visit_nil _ _ _ _ _ Hv Hd) names w2 out w' Hsub) in H
      as (evs2 & Ht3 & Hreads2 & Hdirs3); [|done].
    exists (evs2 ++ evs1 ++ [call_ReadDir path]).
    split; [by rewrite Ht3, Ht2, Ht1, <- !app_assoc|]. split; [|done].
    apply reads_reached_app; [|done]. by apply reads_reached_app.
Qed.

Lemma Walk_reach fuel root w out w' :
  pathwalk.Walk E (format.visit E f) fuel root w = (out, w') ->
  directories_from m (fs w) ->
  exists evs, trace w' = evs ++ trace w /\ reads_reached m f root evs /\
    directories_from m (fs w').
Proof.
  unfold pathwalk.Walk. unfold mbind at 1, lift.
  destruct (os.Lstat E root w) as [r w1] eqn:Hl.
  apply Lstat_spec in Hl as (Hfs1 & Ht1 & _).
  unfold mbind at 1. intros H Hdirs.
  assert (Hone : reads_reached m f root [call_Lstat root])
    by (by apply reads_reached_neutral).
  destruct r as [info|e].
  - destruct (pathwalk.walk E (format.visit E f) fuel root info w1)
      as [out1 w2] eqn:Hw.
    apply walk_reach in Hw as (evs1 & Ht2 & Hreads1 & Hdirs2); [|by rewrite Hfs1].
    assert (w' = w2) as ->
      by (destruct out1 as [[[]|]|msg|]; unfold mret in H; by injection H as <- <-).
    exists (evs1 ++ [call_Lstat root]).
    split; [by rewrite Ht2, Ht1, <- app_assoc|]. split; [|done].
    by apply reads_reached_app.
  - rewrite invoke_nil in H. injection H as <- <-.
    exists [call_walkFn root None; call_Lstat root].
    split; [by simpl; rewrite Ht1|]. split; [|by simpl; rewrite Hfs1].
    intros p [[=]|[[=]|[]]].
Qed.

Lemma Build_walk_reach fuel roots w out w' :
  format.Build_walk E fuel f roots w = (out, w') ->
  directories_from m (fs w) ->
  exists evs, trace w' = evs ++ trace w /\
    forall p, In (call_ReadFile p) evs ->
      exists root, In root roots /\ reached m f root p.
Proof.
  revert w out w'. induction roots as [|root rest IH]; intros w out w'.
  { intros [= <- <-] _. exists []. split; [done|]. intros p []. }
  cbn [format.Build_walk]. unfold mbind at 1.
  destruct (pathwalk.Walk E (format.visit E f) fuel root w) as [out1 w1] eqn:Hw.
  intros H Hdirs.
  apply Walk_reach in Hw as (evs1 & Ht1 & Hreads1 & Hdirs1); [|done].
  assert (Hstop : (out1, w1) = (out, w') ->
            exists evs, trace w' = evs ++ trace w /\
              forall p, In (call_ReadFile p) evs ->
                exists root0, In root0 (root :: rest) /\ reached m f root0 p).
  { intros [= <- <-]. exists evs1. split; [done|].
    intros p Hin. exists root. split; [by left|auto]. }
  destruct out1 as [[e|]|msg|]; try (by apply Hstop).
  apply IH in H as (evs2 & Ht2 & Hreads2); [|done].
  exists (evs2 ++ evs1). split; [by rewrite Ht2, Ht1, app_assoc|].
  intros p. rewrite in_app_iff. intros [Hin|Hin].
  - destruct (Hreads2 p Hin) as (r & Hr & Hreach). exists r. split; [by right|done].
  - exists root. split; [by left|auto].
Qed.

End walk_reach.

(** The files [Build] reads are the roots and what is reached from them. *)
Lemma Build_reach (E : Env) (fuel : nat) (f : format.Format)
    (config : format.Config) (w : World) (p : string) :
  let r := format.Build E fuel f config w in
  In (call_ReadFile p) (events w r.2) ->
  exists root, In root (strings.Split (format.SearchDir config) ",") /\
               reached (fs w) r.1.2 root p.
Proof.
  unfold format.Build.
  destruct (format.Build_roots E f _ w) as [[err f1] w1] eqn:Hr.
  apply Build_roots_spec in Hr as (Hfs0 & evs0 & Ht0 & Hall0).
  apply Stat_calls_only in Hall0 as [Hnoread _].
  destruct err as [e|]; simpl.
  - rewrite (events_app _ _ _ Ht0). intros Hin. by destruct (Hnoread p).
  - destruct (format.Build_walk E fuel _ _ w1) as [out w2] eqn:Hw. simpl.
    apply (Build_walk_reach E _ (fs w)) in Hw as (evs1 & Ht1 & Hreads);
      [|rewrite Hfs0; by intros ? ? ?].
    rewrite (events_app w w2 (evs1 ++ evs0)) by (by rewrite Ht1, Ht0, app_assoc).
    rewrite in_app_iff. intros [Hin|Hin]; [auto|by destruct (Hnoread p)].
Qed.

(** What is reached in one step or more is an entry that a directory
    lists, the directory being reached and not excluded. *)
Lemma reached_inv (m : gmap string node) (f : format.Format) (root p : string) :
  reached m f root p ->
  p = root \/
  exists dir names perm name,
    p = filepath.Join [dir; name] /\ reached m f root dir /\
    m !! dir = Some (Directory names perm) /\ In name names /\
    format.excludeDir f dir = false.
Proof. intros [|dir names perm name Hdir Hnd Hin Hx]; [by left|right; eauto 10]. Qed.

(** C8, as stated, fails when a configured root lies inside a directory
    that [excludeDir] holds of: that directory is never come to.  With the
    root [.git/hooks], [excludeDir] holds of [.git], [.git/hooks/pre.go]
    lies inside it, and the file is read, formatted and rewritten. *)
Lemma pruning_counterexample :
  let w := {| fs := sample.hooks_tree; trace := [] |} in
  let r := format.Build sample.quiet 10 (format.New sample.bang)
             (sample.root ".git/hooks") w in
  r.1.1 = Ret None /\
  format.excludeDir r.1.2 ".git" = true /\
  inside ".git" ".git/hooks/pre.go" /\
  In (call_ReadFile ".git/hooks/pre.go") (events w r.2) /\
  In (call_Format ".git/hooks/pre.go" (sample.bs "x")) (events w r.2) /\
  fs r.2 !! ".git/hooks/pre.go" = Some (RegularFile (sample.bs "x!") 420).
Proof.
  cbv zeta. split; [vm_compute; reflexivity|]. split; [vm_compute; reflexivity|].
  split; [exists ["hooks"; "pre.go"]; split; [done|vm_compute; reflexivity]|].
  split; [vm_compute; tauto|]. split; [vm_compute; tauto|].
  vm_compute. reflexivity.
Qed.

(** C8, amended.  When the walk comes to a directory that [excludeDir]
    holds of, it lists the directory, calls the visitor on it, and that is
    all: the walk of the directory returns [SkipDir] with no entry of the
    directory examined, read, transformed or written; the loop over the
    entries of its parent goes on with the next sibling, and when the
    directory is the root the walk ends without an error.  So a file that
    [Build] reads is a root, or is come to from a root by going, one step
    at a time, from a directory that [excludeDir] does not hold of to an
    entry that the directory lists in the tree [Build] was started on; what
    lies inside an excluded directory is read only when it is come to in
    that way, from a root inside the directory or below it. *)
Theorem excluded_directory_is_pruned (E : Env) (f : format.Format) (fuel : nat)
    (dir : string) (info : FileInfo) (w : World) :
  IsDir info = true ->
  format.excludeDir f dir = true ->
  let w' := {| fs := fs w;
               trace := call_walkFn dir (Some true) :: call_ReadDir dir :: trace w |} in
  pathwalk.walk E (format.visit E f) (S fuel) dir info w = (Ret (Some SkipDir), w') /\
  (forall parent name rest w0,
     filepath.Join [parent; name] = dir ->
     os.Lstat E dir w0 = (Ok info, w) ->
     pathwalk.walk_names E (format.visit E f)
       (pathwalk.walk E (format.visit E f) (S fuel)) parent (name :: rest) w0
     = pathwalk.walk_names E (format.visit E f)
         (pathwalk.walk E (format.visit E f) (S fuel)) parent rest w') /\
  (forall w0,
     os.Lstat E dir w0 = (Ok info, w) ->
     pathwalk.Walk E (format.visit E f) (S fuel) dir w0 = (Ret None, w')) /\
  (forall fuel0 f0 config w0 p,
     let r := format.Build E fuel0 f0 config w0 in
     In (call_ReadFile p) (events w0 r.2) ->
     exists root, In root (strings.Split (format.SearchDir config) ",") /\
                  reached (fs w0) r.1.2 root p).
Proof.
  intros Hd Hx w'. pose proof (walk_excluded E f fuel dir info w Hd Hx) as Hw.
  split; [done|]. split; [|split].
  - intros parent name rest w0 Hjoin Hl. cbn [pathwalk.walk_names].
    rewrite Hjoin. unfold mbind at 1, lift. rewrite Hl.
    unfold mbind at 1. rewrite Hw. by rewrite Hd.
  - intros w0 Hl. unfold pathwalk.Walk. unfold mbind at 1, lift. rewrite Hl.
    unfold mbind at 1. by rewrite Hw.
  - intros fuel0 f0 config w0 p. apply Build_reach.
Qed.

(** The walk of [proj] comes to [proj/.git]. *)
Lemma excluded_directory_is_pruned_witness :
  pathwalk.walk sample.quiet (format.visit sample.quiet (format.New sample.bang)) 10
    "proj/.git" {| Mode := node_Mode (Directory ["y.go"] 493) |} sample.world
  = (Ret (Some SkipDir),
     {| fs := fs sample.world;
        trace := [call_walkFn "proj/.git" (Some true); call_ReadDir "proj/.git"] |}).
Proof.
  apply (excluded_directory_is_pruned sample.quiet (format.New sample.bang) 9
           "proj/.git" {| Mode := node_Mode (Directory ["y.go"] 493) |} sample.world).
  - vm_compute. reflexivity.
  - vm_compute. reflexivity.
Defined.

(** ** A directory with the name of a source file *)

(** C10.  A directory that survives [excludeDir] goes through the check
    for files: when the walk hands the visitor a directory that
    [excludeDir] does not hold of (so that it is not in the exclusion set
    either) and whose name ends in [".go"] but not, lower-cased, in
    ["_test.go"], the per-file pipeline is run on it, its read fails, and
    [Build] returns that error, wrapped. *)
Theorem directory_named_go_aborts_Build (E : Env) (fuel : nat) (f : format.Format)
    (config : format.Config) (w : World) (dir : string) :
  let r := format.Build E fuel f config w in
  In (call_walkFn dir (Some true)) (events w r.2) ->
  format.excludeDir r.1.2 dir = false ->
  strings.HasSuffix dir ".go" = true ->
  strings.HasSuffix (strings.ToLower dir) "_test.go" = false ->
  format.exclude r.1.2 !! dir <> Some true /\
  In (call_ReadFile dir) (events w r.2) /\
  exists op errno,
    r.1.1 = Ret (Some (Wrapped "fmt: " (PathError op dir errno))).
Proof.
  intros r Hin Hd Hgo Htest.
  destruct (Build_spec E fuel f config w) as (evs & Ht & HA).
  fold r in Ht, HA. rewrite (events_app _ _ _ Ht) in *.
  assert (Hset : format.excluded r.1.2 dir = false).
  { unfold format.excludeDir in Hd. by apply orb_false_iff in Hd as [? _]. }
  assert (Hf : format.excludeFile r.1.2 dir = false).
  { unfold format.excludeFile.
    by rewrite Hset, Htest, (Ext_of_go_suffix _ Hgo). }
  destruct (HA dir Hin Hd Hf) as (e & Hout & Hr & op & errno & ->).
  split; [|split; [done|by exists op, errno]].
  intros Hmem. apply excluded_iff in Hmem. congruence.
Qed.

(** [src/pkg.go] is a directory: [Build] stops there, [src/z.go] is not
    come to. *)
Lemma directory_named_go_aborts_Build_witness :
  let r := format.Build sample.quiet 10 (format.New sample.bang) (sample.root "src")
             {| fs := sample.src_tree; trace := [] |} in
  format.exclude r.1.2 !! "src/pkg.go" <> Some true /\
  In (call_ReadFile "src/pkg.go") (events {| fs := sample.src_tree; trace := [] |} r.2) /\
  exists op errno,
    r.1.1 = Ret (Some (Wrapped "fmt: " (PathError op "src/pkg.go" errno))).
Proof.
  apply (directory_named_go_aborts_Build sample.quiet 10 (format.New sample.bang)
           (sample.root "src") {| fs := sample.src_tree; trace := [] |} "src/pkg.go").
  - vm_compute. tauto.
  - vm_compute. reflexivity.
  - vm_compute. reflexivity.
  - vm_compute. reflexivity.
Defined.

(** ** [Run] and the file pipeline *)

Lemma Copy_unlimited (dst : io.Writer) (b : list byte) :
  io.limit dst = None ->
  io.Copy dst b
  = ((length b, None), {| io.written := io.written dst ++ b; io.limit := None |}).
Proof.
  intros Hl. destruct dst as [wr lim]. simpl in Hl. subst lim.
  destruct b as [|x b]; [by rewrite app_nil_r|].
  unfold io.Copy, io.Write. cbn [io.limit io.written].
  by rewrite Nat.eqb_refl.
Qed.

(** C9, as stated, fails for a formatter whose result depends on the file
    name: [Run] passes the empty name, [Build] the path of the file.  With
    the formatter that puts the name in front, [Run] on ["x"] writes ["x"],
    and [Build] leaves ["a.gox"] in the file [a.go] that held ["x"]. *)
Lemma streaming_counterexample :
  let f := format.New sample.stamp in
  let w := {| fs := {[ "a.go" := RegularFile (sample.bs "x") 420%Z ]}; trace := [] |} in
  let run := format.Run f {| io.pending := [sample.bs "x"]; io.failure := None |}
               {| io.written := []; io.limit := None |} w in
  let build := format.Build sample.quiet 10 f (sample.root "a.go") w in
  run.1.1.1 = None /\
  io.written run.1.2 = sample.bs "x" /\
  build.1.1 = Ret None /\
  fs build.2 !! "a.go" = Some (RegularFile (sample.bs "a.gox") 420) /\
  io.written run.1.2 <> sample.bs "a.gox".
Proof.
  cbv zeta. repeat split; try (vm_compute; reflexivity).
  vm_compute. discriminate.
Qed.

(** C9, amended.  [Run] takes the whole of its input, calls the formatter
    once, with the empty file name and that input, touches no file, and,
    the formatter having returned a result and the writer taking it, has
    written the whole result and returns [nil].  When the formatter returns
    for the path of a file holding that input what it returns for the
    empty name, the file pipeline of [Build], run on the file without an
    error, leaves in it exactly the bytes [Run] has written. *)
Theorem Run_matches_file_pipeline (E : Env) (f : format.Format) (w : World)
    (src : io.Reader) (dst : io.Writer) (result : list byte) :
  io.failure src = None ->
  io.limit dst = None ->
  swag.Format (format.formatter f) "" (concat (io.pending src)) = Ok result ->
  let input := concat (io.pending src) in
  let r := format.Run f src dst w in
  r.1 = (None, {| io.pending := []; io.failure := None |},
         {| io.written := io.written dst ++ result; io.limit := None |}) /\
  fs r.2 = fs w /\
  trace r.2 = call_Format "" input :: trace w /\
  (forall path perm,
     fs w !! path = Some (RegularFile input perm) ->
     swag.Format (format.formatter f) path input
     = swag.Format (format.formatter f) "" input ->
     (format.format E f path w).1 = None ->
     exists perm',
       fs (format.format E f path w).2 !! path = Some (RegularFile result perm')).
Proof.
  intros Hsrc Hdst Hfmt input r. subst r. unfold format.Run, io.ReadAll.
  rewrite Hsrc. unfold bind, format.Formatter_Format, ret. rewrite Hfmt.
  rewrite (Copy_unlimited _ _ Hdst). simpl. repeat split.
  intros path perm Hnd Hsame. rewrite format_unfold.
  destruct (os.ReadFile E path w) as [[data|e] w1] eqn:Hr; [|done].
  apply ReadFile_spec in Hr as (Hfs1 & _ & Hdata).
  destruct (Hdata data eq_refl) as (perm0 & Hnd0).
  assert (data = input) as -> by congruence.
  cbv zeta. rewrite Hsame. fold input in Hfmt. rewrite Hfmt.
  destruct (bytes.Equal input result) eqn:Heq.
  - apply bytes_Equal_iff in Heq. simpl. intros _. exists perm. congruence.
  - destruct (format.write E path result _) as [res w2] eqn:Hw. simpl.
    intros ->. apply write_spec in Hw as (data' & perm' & _ & Hfs2).
    rewrite Hfs2. eexists. apply lookup_insert_eq.
Qed.

(** The formatter [bang] does not look at the file name. *)
Lemma Run_matches_file_pipeline_witness :
  (format.Run (format.New sample.bang)
     {| io.pending := [sample.bs "ma"; sample.bs "in"]; io.failure := None |}
     {| io.written := []; io.limit := None |} sample.world).1
  = (None, {| io.pending := []; io.failure := None |},
     {| io.written := sample.bs "main!"; io.limit := None |})
  /\ exists perm',
       fs (format.format sample.quiet (format.New sample.bang) "proj/main.go"
             sample.world).2 !! "proj/main.go"
       = Some (RegularFile (sample.bs "main!") perm').
Proof.
  pose proof (Run_matches_file_pipeline sample.quiet (format.New sample.bang)
                sample.world
                {| io.pending := [sample.bs "ma"; sample.bs "in"]; io.failure := None |}
                {| io.written := []; io.limit := None |} (sample.bs "main!")
                eq_refl eq_refl eq_refl) as (Hrun & _ & _ & Hfile).
  split; [exact Hrun|].
  apply (Hfile "proj/main.go" 420%Z); vm_compute; reflexivity.
Defined.

(** * Further properties of the package *)

(** ** A relation that every step keeps is kept by the walk *)
Section walk_relation.
Variable E : Env.
Variable f : format.Format.
Variable R : World -> World -> Prop.
Hypothesis R_refl : forall w, R w w.
Hypothesis R_trans : forall a b c, R a b -> R b c -> R a c.
Hypothesis R_Lstat : forall name w r w', os.Lstat E name w = (r, w') -> R w w'.
Hypothesis R_ReadDir :
  forall name w r w', pathwalk.readDirNames E name w = (r, w') -> R w w'.
Hypothesis R_visit :
  forall path info err w out w',
    pathwalk.invoke (format.visit E f) path info err w = (out, w') -> R w w'.

Lemma walk_names_related (rec : string -> FileInfo -> M (option error)) :
  (forall path info w out w', rec path info w = (out, w') -> R w w') ->
  forall names path w out w',
    pathwalk.walk_names E (format.visit E f) rec path names w = (out, w') ->
    R w w'.
Proof.
  intros Hrec names path. induction names as [|name rest IH]; intros w out w'.
  { intros [= <- <-]. apply R_refl. }
  cbn [pathwalk.walk_names]. set (filename := filepath.Join [path; name]).
  unfold mbind at 1, lift.
  destruct (os.Lstat E filename w) as [r w1] eqn:Hl. apply R_Lstat in Hl.
  destruct r as [fileInfo|e]; unfold mbind at 1.
  - destruct (rec filename fileInfo w1) as [out1 w2] eqn:Hr. apply Hrec in Hr.
    assert (H12 : R w w2) by eauto.
    destruct out1 as [[e|]|msg|]; try (intros [= <- <-]; done).
    + destruct (negb (IsDir fileInfo) || negb (pathwalk.is_SkipDir e)).
      * by intros [= <- <-].
      * intros H. apply IH in H. eauto.
    + intros H. apply IH in H. eauto.
  - destruct (pathwalk.invoke _ filename None (Some e) w1) as [out1 w2] eqn:Hv.
    apply R_visit in Hv. assert (H12 : R w w2) by eauto.
    destruct out1 as [[e1|]|msg|]; try (intros [= <- <-]; done).
    + destruct (negb (pathwalk.is_SkipDir e1)).
      * by intros [= <- <-].
      * intros H. apply IH in H. eauto.
    + intros H. apply IH in H. eauto.
Qed.

Lemma walk_related fuel path info w out w' :
  pathwalk.walk E (format.visit E f) fuel path info w = (out, w') -> R w w'.
Proof.
  revert path info w out w'. induction fuel as [|fuel IH]; intros path info w out w'.
  { intros [= <- <-]. apply R_refl. }
  cbn [pathwalk.walk]. destruct (negb (IsDir info)); [apply R_visit|].
  unfold mbind at 1, lift.
  destruct (pathwalk.readDirNames E path w) as [r w1] eqn:Hrd.
  apply R_ReadDir in Hrd. unfold mbind at 1.
  destruct (pathwalk.invoke _ path (Some info) (result_err r) w1) as [out1 w2] eqn:Hv.
  apply R_visit in Hv. assert (H12 : R w w2) by eauto.
  destruct out1 as [[e|]|msg|]; try (intros [= <- <-]; done).
  - destruct r; by intros [= <- <-].
  - destruct r as [names|e]; [|by intros [= <- <-]].
    intros H. apply (walk_names_related _ IH) in H. eauto.
Qed.

Lemma Walk_related fuel root w out w' :
  pathwalk.Walk E (format.visit E f) fuel root w = (out, w') -> R w w'.
Proof.
  unfold pathwalk.Walk. unfold mbind at 1, lift.
  destruct (os.Lstat E root w) as [r w1] eqn:Hl. apply R_Lstat in Hl.
  unfold mbind at 1.
  assert (Hend : forall out1 w2, R w1 w2 ->
            match out1 with
            | Ret err => match err with
                         | Some SkipDir => mret None
                         | _ => mret err
                         end w2
            | Panic msg => (Panic msg, w2)
            | OutOfFuel => (OutOfFuel, w2)
            end = (out, w') -> R w w').
  { intros out1 w2 H12 H. assert (w' = w2) as ->; [|eauto].
    destruct out1 as [[[]|]|msg|]; by injection H as <- <-. }
  destruct r as [info|e].
  - destruct (pathwalk.walk E _ fuel root info w1) as [out1 w2] eqn:Hw.
    apply walk_related in Hw. by apply Hend.
  - destruct (pathwalk.invoke _ root None (Some e) w1) as [out1 w2] eqn:Hv.
    apply R_visit in Hv. by apply Hend.
Qed.

Lemma Build_walk_related fuel roots w out w' :
  format.Build_walk E fuel f roots w = (out, w') -> R w w'.
Proof.
  revert w out w'. induction roots as [|root rest IH]; intros w out w'.
  { intros [= <- <-]. apply R_refl. }
  cbn [format.Build_walk]. unfold mbind at 1.
  destruct (pathwalk.Walk E (format.visit E f) fuel root w) as [out1 w1] eqn:Hw.
  apply Walk_related in Hw.
  destruct out1 as [[e|]|msg|]; try (by intros [= <- <-]).
  intros H. apply IH in H. eauto.
Qed.

End walk_relation.

(** The same for [Build], the relation depending on the receiver the walk
    runs with. *)
Lemma Build_related (E : Env) (R : format.Format -> World -> World -> Prop) :
  (forall f w, R f w w) ->
  (forall f a b c, R f a b -> R f b c -> R f a c) ->
  (forall f name w r w', os.Stat E name w = (r, w') -> R f w w') ->
  (forall f name w r w', os.Lstat E name w = (r, w') -> R f w w') ->
  (forall f name w r w', pathwalk.readDirNames E name w = (r, w') -> R f w w') ->
  (forall f path info err w out w',
     pathwalk.invoke (format.visit E f) path info err w = (out, w') -> R f w w') ->
  forall fuel f config w,
    R (format.Build E fuel f config w).1.2 w (format.Build E fuel f config w).2.
Proof.
  intros Hrefl Htrans HStat HLstat HReadDir Hvisit fuel f config w.
  assert (Hroots : forall f0 dirs f1 w1 err f2 w2,
            format.Build_roots E f1 dirs w1 = ((err, f2), w2) -> R f0 w1 w2).
  { intros f0 dirs. induction dirs as [|dir rest IH]; intros f1 w1 err f2 w2.
    { intros [= <- <- <-]. apply Hrefl. }
    cbn [format.Build_roots]. unfold bind at 1.
    destruct (os.Stat E dir w1) as [r w3] eqn:Hs. apply (HStat f0) in Hs.
    destruct (os.IsNotExist (result_err r)).
    - by intros [= <- <- <-].
    - intros H. apply IH in H. eauto. }
  unfold format.Build.
  destruct (format.Build_roots E f _ w) as [[err f1] w1] eqn:Hr.
  destruct err as [e|]; simpl.
  - eapply Hroots, Hr.
  - destruct (format.Build_walk E fuel _ _ w1) as [out w2] eqn:Hw. simpl.
    apply (Htrans _ _ w1); [eapply Hroots, Hr|].
    revert Hw. apply Build_walk_related; eauto.
Qed.

(** ** What [Build] does not do to the files *)








Lemma changed_only_read_same (w w' : World) (c : call) :
  fs w' = fs w -> trace w' = c :: trace w -> changed_only_read w w'.
Proof. intros Hfs Ht. exists [c]. split; [done|]. intros p _. by rewrite Hfs. Qed.

(** X2.  When the removal of a temporary file does not fail, the files
    [Build] leaves changed are among those it has read: a path it made no
    [os.ReadFile] call for names after the call exactly what it named
    before, contents and mode, and no path is new. *)
Theorem Build_changes_only_what_it_read (E : Env) (fuel : nat) (f : format.Format)
    (config : format.Config) (w : World) :
  (forall n name, fault E n (call_Remove name) = None) ->
  forall p,
    ~ In (call_ReadFile p) (events w (format.Build E fuel f config w).2) ->
    fs (format.Build E fuel f config w).2 !! p = fs w !! p.
Proof.
  intros Hrm.
  assert (H : changed_only_read w (format.Build E fuel f config w).2).
  { apply (Build_related E (fun _ a b => changed_only_read a b)).
    - intros _ a. exists []. by split.
    - intros _ a b c (evs1 & Ht1 & H1) (evs2 & Ht2 & H2).
      exists (evs2 ++ evs1). split; [by rewrite Ht2, Ht1, app_assoc|].
      intros p Hp. rewrite in_app_iff in Hp. rewrite H2, H1; tauto.
    - intros _ name a r b H. apply Stat_spec in H as (Hfs & Ht & _).
      by apply (changed_only_read_same _ _ _ Hfs Ht).
    - intros _ name a r b H. apply Lstat_spec in H as (Hfs & Ht & _).
      by apply (changed_only_read_same _ _ _ Hfs Ht).
    - intros _ name a r b H. apply readDirNames_spec in H as (Hfs & Ht).
      by apply (changed_only_read_same _ _ _ Hfs Ht).
    - intros f0 path info err a out b H.
      apply visit_effect in H as [[Hfs Ht]|(w0 & r & Hfs & H & _ & Ht0)];
        [by apply (changed_only_read_same _ _ _ Hfs Ht)|].
      pose proof (format_trace_on _ _ _ _ _ _ H) as (evs & Ht & _).
      exists (evs ++ [call_ReadFile path; call_walkFn path (IsDir <$> info)]).
      split; [by rewrite Ht, Ht0, <- app_assoc|].
      intros p Hp. rewrite <- Hfs.
      apply format_effect in H
        as [H|[(_ & tmp & nd & n & _ & _ & _ & Hf)|(_ & data & perm & c & _ & H)]].
      + by rewrite H.
      + by destruct (Hf (Hrm n tmp)).
      + rewrite H. apply lookup_insert_ne. intros <-. apply Hp.
        rewrite in_app_iff. simpl. auto. }
  destruct H as (evs & Ht & H). intros p. rewrite (events_app _ _ _ Ht). apply H.
Qed.

(** The files under [proj/vendor] are not read, and are as they were. *)
Lemma Build_changes_only_what_it_read_witness :
  fs (format.Build sample.quiet 10 (format.New sample.bang) sample.proj
        sample.world).2 !! "proj/vendor/x.go"
  = fs sample.world !! "proj/vendor/x.go".
Proof.
  apply (Build_changes_only_what_it_read sample.quiet 10 (format.New sample.bang)
           sample.proj sample.world).
  - intros n name. reflexivity.
  - vm_compute. intuition discriminate.
Defined.

(** ** The exclusion set [Build] leaves in its receiver *)

Lemma set_exclude_lookup (f : format.Format) (k0 k : string) :
  format.exclude (format.set_exclude f k0) !! k = Some true <->
  k = k0 \/ format.exclude f !! k = Some true.
Proof.
  unfold format.set_exclude. simpl. destruct (decide (k0 = k)) as [->|Hne].
  - rewrite lookup_insert_eq. tauto.
  - rewrite lookup_insert_ne by done. split; [tauto|]. intros [->|H]; done.
Qed.

Lemma fold_set_exclude_lookup {A} (g : A -> string) (l : list A)
    (f : format.Format) (k : string) :
  format.exclude (fold_left (fun f d => format.set_exclude f (g d)) l f) !! k
  = Some true <->
  format.exclude f !! k = Some true \/ exists d, In d l /\ k = g d.
Proof.
  revert f. induction l as [|d l IH]; intros f; simpl.
  - split; [tauto|]. intros [H|(d & [] & _)]. done.
  - rewrite IH, set_exclude_lookup. split.
    + intros [[->|H]|(d' & Hin & ->)]; eauto 6.
    + intros [H|(d' & [<-|Hin] & ->)]; eauto 6.
Qed.

Lemma Build_excludes_lookup (f : format.Format) (fields : list string) (k : string) :
  format.exclude (format.Build_excludes f fields) !! k = Some true <->
  format.exclude f !! k = Some true \/ user_excluded fields k.
Proof.
  unfold format.Build_excludes, user_excluded.
  revert f. induction fields as [|fi fields IH]; intros f; simpl.
  - split; [tauto|]. intros [H|(d & [] & _)]. done.
  - rewrite IH. destruct (String.eqb_spec (strings.TrimSpace fi) "") as [Hb|Hb]; simpl.
    + split.
      * intros [H|(fi' & Hin & Hne & ->)]; eauto 8.
      * intros [H|(fi' & [<-|Hin] & Hne & ->)]; [tauto|done|eauto 8].
    + pose proof (set_exclude_lookup f (filepath.Clean (strings.TrimSpace fi)) k)
        as Hs.
      unfold format.set_exclude in Hs. simpl in Hs. rewrite Hs. split.
      * intros [[->|H]|(fi' & Hin & Hne & ->)]; eauto 8.
      * intros [H|(fi' & [<-|Hin] & Hne & ->)]; eauto 8.
Qed.

Section Build_roots_set.
Variable E : Env.

(** The set after the first loop: it has grown by default excludes of
    the roots, by those of all the roots when no root was found missing. *)
Lemma Build_roots_lookup f roots w err f' w' k :
  format.Build_roots E f roots w = ((err, f'), w') ->
  (format.exclude f !! k = Some true -> format.exclude f' !! k = Some true) /\
  (format.exclude f' !! k = Some true ->
   format.exclude f !! k = Some true \/ default_excluded roots k) /\
  (err = None -> default_excluded roots k -> format.exclude f' !! k = Some true).
Proof.
  unfold default_excluded.
  revert f w. induction roots as [|root rest IH]; intros f w.
  { intros [= <- <- <-]. split; [done|]. split; [tauto|].
    by intros _ (r & d & [] & _). }
  cbn [format.Build_roots]. unfold bind at 1.
  destruct (os.Stat E root w) as [r w1].
  destruct (os.IsNotExist (result_err r)).
  { intros [= <- <- <-]. split; [done|]. split; [tauto|]. done. }
  intros H. apply IH in H as (Hmono & Hsound & Hcompl).
  pose proof (fold_set_exclude_lookup (fun d => filepath.Join [root; d])
                format.defaultExcludes f k) as Hfold.
  split; [|split].
  - intros Hk. apply Hmono, Hfold. by left.
  - intros Hk. destruct (Hsound Hk) as [Hk'|(r0 & d & Hin & Hd & ->)].
    + apply Hfold in Hk' as [Hk'|(d & Hd & ->)]; [by left|].
      right. exists root, d. by repeat split; [left|..].
    + right. exists r0, d. by repeat split; [right|..].
  - intros Hnone (r0 & d & [<-|Hin] & Hd & ->).
    + apply Hmono, Hfold. right. by exists d.
    + apply (Hcompl Hnone). by exists r0, d.
Qed.

(** Every root is there and [os.Stat] is not made to fail: the first
    loop finds no root missing. *)
Lemma Build_roots_pass f roots w :
  (forall root, In root roots -> is_Some (fs w !! root)) ->
  (forall n name, fault E n (call_Stat name) = None) ->
  (format.Build_roots E f roots w).1.1 = None.
Proof.
  intros Hex Hf. revert f w Hex. induction roots as [|root rest IH]; intros f w Hex.
  { done. }
  cbn [format.Build_roots]. unfold bind at 1.
  destruct (os.Stat E root w) as [r w1] eqn:Hs.
  assert (Hfs : fs w1 = fs w) by (by apply Stat_spec in Hs as [? _]).
  assert (Hok : os.IsNotExist (result_err r) = false).
  { destruct (Hex root (or_introl eq_refl)) as [nd Hnd].
    unfold os.Stat, os.syscall, os.stat_sem in Hs. rewrite Hf, Hnd in Hs.
    by injection Hs as <- _. }
  rewrite Hok. apply IH. intros root' Hin. rewrite Hfs. apply Hex. by right.
Qed.

End Build_roots_set.

(** X3.  The exclusion set of the receiver only grows in [Build], and only
    by paths the configuration registers: what was excluded before the
    call is excluded after it (exclusions of an earlier [Build] stay in
    force in a later one on the same receiver), and what is excluded after
    it was excluded before or is a default exclude under a root or a
    trimmed, cleaned field of [Excludes]. *)
Theorem Build_exclusion_set_grows (E : Env) (fuel : nat) (f : format.Format)
    (config : format.Config) (w : World) (k : string) :
  let f' := (format.Build E fuel f config w).1.2 in
  (format.exclude f !! k = Some true -> format.exclude f' !! k = Some true) /\
  (format.exclude f' !! k = Some true ->
   format.exclude f !! k = Some true \/ registered config k).
Proof.
  unfold format.Build, registered.
  destruct (format.Build_roots E f _ w) as [[err f1] w1] eqn:Hr.
  apply (Build_roots_lookup E f _ w err f1 w1 k) in Hr as (Hmono & Hsound & _).
  destruct err as [e|]; simpl.
  - split; [done|]. intros H. destruct (Hsound H); tauto.
  - destruct (format.Build_walk E fuel _ _ w1) as [out w2]. simpl.
    rewrite Build_excludes_lookup. split; [tauto|].
    intros [H|H]; [|tauto]. destruct (Hsound H); tauto.
Qed.

(** [proj/vendor] was not excluded before, and is after. *)
Lemma Build_exclusion_set_grows_witness :
  format.exclude (format.New sample.bang) !! "proj/vendor" = Some true \/
  registered sample.proj "proj/vendor".
Proof.
  apply (Build_exclusion_set_grows sample.quiet 10 (format.New sample.bang)
           sample.proj sample.world "proj/vendor").
  vm_compute. reflexivity.
Defined.

(** X4.  When every root exists (and [os.Stat] is not made to fail), the
    exclusion set after [Build] is exactly what it was before together with
    [root/docs] and [root/vendor] for every root and the trimmed, cleaned
    non-blank fields of [Excludes]. *)
Theorem Build_exclusion_set_exact (E : Env) (fuel : nat) (f : format.Format)
    (config : format.Config) (w : World) (k : string) :
  (forall root, In root (strings.Split (format.SearchDir config) ",") ->
                is_Some (fs w !! root)) ->
  (forall n name, fault E n (call_Stat name) = None) ->
  format.exclude (format.Build E fuel f config w).1.2 !! k = Some true <->
  format.exclude f !! k = Some true \/ registered config k.
Proof.
  intros Hex Hf. pose proof (Build_roots_pass E f _ w Hex Hf) as Hpass.
  unfold format.Build, registered.
  destruct (format.Build_roots E f _ w) as [[err f1] w1] eqn:Hr.
  simpl in Hpass. subst err.
  apply (Build_roots_lookup E f _ w None f1 w1 k) in Hr as (Hmono & Hsound & Hcompl).
  destruct (format.Build_walk E fuel _ _ w1) as [out w2]. simpl.
  rewrite Build_excludes_lookup. split.
  - intros [H|H]; [|tauto]. destruct (Hsound H); tauto.
  - intros [H|[H|H]]; auto.
Qed.

(** A field of [Excludes] with blanks and a trailing slash. *)
Lemma Build_exclusion_set_exact_witness :
  format.exclude
    (format.Build sample.quiet 10 (format.New sample.bang)
       {| format.SearchDir := "proj"; format.Excludes := " proj/sub/ ,";
          format.MainFile := "" |} sample.world).1.2 !! "proj/sub" = Some true.
Proof.
  apply (Build_exclusion_set_exact sample.quiet 10 (format.New sample.bang)
           {| format.SearchDir := "proj"; format.Excludes := " proj/sub/ ,";
              format.MainFile := "" |} sample.world "proj/sub").
  - intros root [<-|[]]. vm_compute. eauto.
  - intros n name. reflexivity.
  - right. right. exists " proj/sub/ ". vm_compute. split; [tauto|]. split; [discriminate|reflexivity].
Defined.

(** ** The files [Build] works on *)

Lemma pipeline_on_eligible (f : format.Format) (path : string) (c : call) :
  format.excludeFile f path = false -> pipeline_on path c -> eligible_call f c.
Proof. intros Hf. destruct c; simpl; try done; by intros ->. Qed.

Lemma eligible_calls_one (f : format.Format) (w w' : World) (c : call) :
  eligible_call f c -> trace w' = c :: trace w -> eligible_calls f w w'.
Proof. intros Hc Ht. exists [c]. split; [done|]. by constructor. Qed.

Lemma Build_eligible_calls (E : Env) (fuel : nat) (f : format.Format)
    (config : format.Config) (w : World) :
  eligible_calls (format.Build E fuel f config w).1.2 w
    (format.Build E fuel f config w).2.
Proof.
  apply (Build_related E eligible_calls).
  - intros f0 a. exists []. by split.
  - intros f0 a b c (evs1 & Ht1 & H1) (evs2 & Ht2 & H2).
    exists (evs2 ++ evs1). split; [by rewrite Ht2, Ht1, app_assoc|].
    apply Forall_app. by split.
  - intros f0 name a r b H. apply Stat_spec in H as (_ & Ht & _).
    by apply (eligible_calls_one _ _ _ (call_Stat name)).
  - intros f0 name a r b H. apply Lstat_spec in H as (_ & Ht & _).
    by apply (eligible_calls_one _ _ _ (call_Lstat name)).
  - intros f0 name a r b H. apply readDirNames_spec in H as (_ & Ht).
    by apply (eligible_calls_one _ _ _ (call_ReadDir name)).
  - intros f0 path info err a out b H.
    apply visit_effect in H as [[_ Ht]|(w0 & r & _ & H & Hf & Ht0)].
    + by apply (eligible_calls_one _ _ _ (call_walkFn path (IsDir <$> info))).
    + apply format_trace_on in H as (evs & Ht & Hall).
      exists (evs ++ [call_ReadFile path; call_walkFn path (IsDir <$> info)]).
      split; [by rewrite Ht, Ht0, <- app_assoc|].
      apply Forall_app. split.
      * eapply Forall_impl; [exact Hall|]. intros c. by apply pipeline_on_eligible.
      * by repeat constructor.
Qed.

Lemma Build_works_on_eligible_calls_aux (E : Env) (fuel : nat) (f : format.Format)
    (config : format.Config) (w : World) (p : string) :
  In (call_ReadFile p) (events w (format.Build E fuel f config w).2) ->
  format.exclude (format.Build E fuel f config w).1.2 !! p <> Some true.
Proof.
  intros Hin.
  destruct (Build_eligible_calls E fuel f config w) as (evs & Ht & Hall).
  rewrite (events_app _ _ _ Ht) in Hin. rewrite List.Forall_forall in Hall.
  pose proof (Hall _ Hin) as Hf. simpl in Hf. unfold format.excludeFile in Hf.
  apply orb_false_iff in Hf as [Hf _]. apply orb_false_iff in Hf as [Hset _].
  intros Hmem. apply excluded_iff in Hmem. congruence.
Qed.

(** X5.  Every file [Build] reads, hands to the formatter or replaces by a
    rename is a file that [excludeFile] does not hold of for the exclusion
    set the call ends with: its extension is [".go"], its lower-cased path
    does not end in ["_test.go"], and it is not in the set. *)
Theorem Build_works_on_eligible_files (E : Env) (fuel : nat) (f : format.Format)
    (config : format.Config) (w : World) (p : string) :
  let r := format.Build E fuel f config w in
  In (call_ReadFile p) (events w r.2) \/
  (exists b, In (call_Format p b) (events w r.2)) \/
  (exists oldpath, In (call_Rename oldpath p) (events w r.2)) ->
  filepath.Ext p = ".go" /\
  strings.HasSuffix (strings.ToLower p) "_test.go" = false /\
  format.exclude r.1.2 !! p <> Some true.
Proof.
  intros r Hin.
  destruct (Build_eligible_calls E fuel f config w) as (evs & Ht & Hall).
  fold r in Ht, Hall. rewrite (events_app _ _ _ Ht) in Hin.
  rewrite List.Forall_forall in Hall.
  assert (Hf : format.excludeFile r.1.2 p = false).
  { destruct Hin as [Hin|[[b Hin]|[old Hin]]]; exact (Hall _ Hin). }
  unfold format.excludeFile in Hf.
  apply orb_false_iff in Hf as [Hf Hext]. apply orb_false_iff in Hf as [Hset Htest].
  split; [|split; [done|]].
  - apply negb_false_iff in Hext. by apply String.eqb_eq.
  - intros Hmem. apply excluded_iff in Hmem. congruence.
Qed.

(** [proj/main.go] is read. *)
Lemma Build_works_on_eligible_files_witness :
  filepath.Ext "proj/main.go" = ".go" /\
  strings.HasSuffix (strings.ToLower "proj/main.go") "_test.go" = false /\
  format.exclude (format.Build sample.quiet 10 (format.New sample.bang) sample.proj
                    sample.world).1.2 !! "proj/main.go" <> Some true.
Proof.
  apply (Build_works_on_eligible_files sample.quiet 10 (format.New sample.bang)
           sample.proj sample.world "proj/main.go").
  left. vm_compute. tauto.
Defined.

(** X6.  A path that was excluded in the receiver before the call, or that
    the configuration registers (a default exclude under a root, a field of
    [Excludes]), is never read by [Build], whatever it names. *)
Theorem Build_never_reads_excluded (E : Env) (fuel : nat) (f : format.Format)
    (config : format.Config) (w : World) (p : string) :
  format.exclude f !! p = Some true \/ registered config p ->
  ~ In (call_ReadFile p) (events w (format.Build E fuel f config w).2).
Proof.
  intros Hreg Hin.
  assert (Hset : format.exclude (format.Build E fuel f config w).1.2 !! p = Some true).
  { revert Hin. unfold format.Build.
    destruct (format.Build_roots E f _ w) as [[err f1] w1] eqn:Hr.
    pose proof (Build_roots_lookup E f _ w err f1 w1 p Hr) as (Hmono & _ & Hcompl).
    destruct err as [e|]; simpl.
    - apply Build_roots_spec in Hr as (_ & evs & Ht & Hall).
      rewrite (events_app _ _ _ Ht). intros Hin.
      apply Stat_calls_only in Hall as [Hno _]. by destruct (Hno p).
    - destruct (format.Build_walk E fuel _ _ w1) as [out w2]. simpl. intros _.
      apply Build_excludes_lookup. unfold registered in Hreg.
      destruct Hreg as [H|[H|H]]; auto. }
  destruct (Build_works_on_eligible_calls_aux E fuel f config w p Hin). done.
Qed.

(** [proj/main.go], listed in [Excludes], is not read. *)
Lemma Build_never_reads_excluded_witness :
  ~ In (call_ReadFile "proj/main.go")
      (events sample.world
         (format.Build sample.quiet 10 (format.New sample.bang)
            {| format.SearchDir := "proj"; format.Excludes := "proj/main.go";
               format.MainFile := "" |} sample.world).2).
Proof.
  apply (Build_never_reads_excluded sample.quiet 10 (format.New sample.bang)
           {| format.SearchDir := "proj"; format.Excludes := "proj/main.go";
              format.MainFile := "" |} sample.world "proj/main.go").
  right. right. exists "proj/main.go". vm_compute.
  split; [tauto|]. split; [discriminate|reflexivity].
Defined.

(** ** How [Build] ends *)
Section walk_endings.
Variable E : Env.
Variable f : format.Format.

Lemma pipeline_call_not_walk path c : pipeline_call path c -> ~ walk_call c.
Proof. destruct c; simpl; tauto. Qed.

Lemma invoke_nil_ending skip path err w out w' :
  pathwalk.invoke (format.visit E f) path None err w = (out, w') ->
  ends_well skip out w'.
Proof. rewrite invoke_nil. intros [= <- <-]. split; [done|]. by eexists _, _. Qed.

Lemma invoke_visit_ending path fi err w out w' :
  pathwalk.invoke (format.visit E f) path (Some fi) err w = (out, w') ->
  ends_well (IsDir fi) out w'.
Proof.
  unfold pathwalk.invoke, format.visit. simpl.
  destruct (IsDir fi && format.excludeDir f path) eqn:Hx.
  { intros [= <- <-]. left. by apply andb_true_iff in Hx as [? _]. }
  destruct (format.excludeFile f path); [by intros [= <- <-]|].
  unfold mbind, lift. destruct (format.format E f path _) as [[e0|] w1] eqn:Hfmt;
    [|by intros [= <- <-]].
  intros [= <- <-]. right. split; [by exists e0|].
  apply format_trace in Hfmt as (evs & Ht & Hall). unfold after_failed_step.
  rewrite Ht. destruct evs as [|c evs]; simpl; [tauto|].
  apply (pipeline_call_not_walk path). by inversion Hall.
Qed.

Lemma walk_names_ending (rec : string -> FileInfo -> M (option error)) :
  (forall path info w out w',
     rec path info w = (out, w') -> ends_well (IsDir info) out w') ->
  forall names path w out w',
    pathwalk.walk_names E (format.visit E f) rec path names w = (out, w') ->
    ends_well false out w'.
Proof.
  intros Hrec names path. induction names as [|name rest IH]; intros w out w'.
  { by intros [= <- <-]. }
  cbn [pathwalk.walk_names]. set (filename := filepath.Join [path; name]).
  unfold mbind at 1, lift. destruct (os.Lstat E filename w) as [[fileInfo|e0] w1].
  - unfold mbind at 1.
    destruct (rec filename fileInfo w1) as [out1 w2] eqn:Hr. apply Hrec in Hr.
    destruct out1 as [[e1|]|msg|]; try (by intros [= <- <-]); [|apply IH].
    destruct (negb (IsDir fileInfo) || negb (pathwalk.is_SkipDir e1)) eqn:Hs;
      [|apply IH].
    intros [= <- <-]. destruct Hr as [[Hd ->]|Hr]; [|by right].
    by rewrite Hd in Hs.
  - unfold mbind at 1.
    destruct (pathwalk.invoke _ filename None (Some e0) w1) as [out1 w2] eqn:Hv.
    pose proof (invoke_nil_ending false _ _ _ _ _ Hv) as Hend.
    rewrite invoke_nil in Hv. injection Hv as <- <-. by intros [= <- <-].
Qed.

Lemma walk_ending fuel path info w out w' :
  pathwalk.walk E (format.visit E f) fuel path info w = (out, w') ->
  ends_well (IsDir info) out w'.
Proof.
  revert path info w out w'. induction fuel as [|fuel IH]; intros path info w out w'.
  { by intros [= <- <-]. }
  cbn [pathwalk.walk]. destruct (negb (IsDir info)); [apply invoke_visit_ending|].
  unfold mbind at 1, lift.
  destruct (pathwalk.readDirNames E path w) as [r w1]. unfold mbind at 1.
  destruct (pathwalk.invoke _ path (Some info) (result_err r) w1)
    as [out1 w2] eqn:Hv.
  apply invoke_visit_ending in Hv.
  destruct out1 as [[e1|]|msg|]; try (by intros [= <- <-]).
  - destruct r; by intros [= <- <-].
  - destruct r as [names|e0]; [|by intros [= <- <-]].
    intros H. apply (walk_names_ending _ IH) in H.
    destruct out as [[e|]|msg|]; try done.
    destruct H as [[[=] _]|H]. by right.
Qed.

Lemma Walk_ending fuel root w out w' :
  pathwalk.Walk E (format.visit E f) fuel root w = (out, w') ->
  ends_well false out w'.
Proof.
  unfold pathwalk.Walk. unfold mbind at 1, lift.
  destruct (os.Lstat E root w) as [[info|e0] w1]; unfold mbind at 1.
  - destruct (pathwalk.walk E _ fuel root info w1) as [out1 w2] eqn:Hw.
    apply walk_ending in Hw.
    destruct out1 as [[e1|]|msg|]; try (by intros [= <- <-]).
    destruct Hw as [[_ ->]|Hw]; [by intros [= <- <-]|].
    assert (Hne : e1 <> SkipDir) by (destruct Hw as [[e2 ->] _]; done).
    destruct e1; try done; intros [= <- <-]; by right.
  - destruct (pathwalk.invoke _ root None (Some e0) w1) as [out1 w2] eqn:Hv.
    pose proof (invoke_nil_ending false _ _ _ _ _ Hv) as Hend.
    rewrite invoke_nil in Hv. injection Hv as <- <-. by intros [= <- <-].
Qed.

Lemma Build_walk_ending fuel roots w out w' :
  format.Build_walk E fuel f roots w = (out, w') -> ends_well false out w'.
Proof.
  revert w. induction roots as [|root rest IH]; intros w.
  { by intros [= <- <-]. }
  cbn [format.Build_walk]. unfold mbind at 1.
  destruct (pathwalk.Walk E _ fuel root w) as [out1 w1] eqn:Hw.
  apply Walk_ending in Hw.
  destruct out1 as [[e1|]|msg|]; try (by intros [= <- <-]). apply IH.
Qed.

End walk_endings.

Lemma Build_roots_ending (E : Env) f roots w e f' w' :
  format.Build_roots E f roots w = ((Some e, f'), w') ->
  is_wrapped e /\ after_failed_step w'.
Proof.
  revert f w. induction roots as [|root rest IH]; intros f w; [done|].
  cbn [format.Build_roots]. unfold bind at 1.
  destruct (os.Stat E root w) as [r w1] eqn:Hs.
  destruct (os.IsNotExist (result_err r)) eqn:Hne; [|apply IH].
  intros [= <- <- <-]. apply Stat_spec in Hs as (_ & Ht & _).
  split; [destruct r as [fi|e0]; [done|by exists e0]|].
  unfold after_failed_step. rewrite Ht. tauto.
Qed.

Lemma Build_ending (E : Env) (fuel : nat) (f : format.Format)
    (config : format.Config) (w : World) :
  ends_well false (format.Build E fuel f config w).1.1
    (format.Build E fuel f config w).2.
Proof.
  unfold format.Build.
  destruct (format.Build_roots E f _ w) as [[[e1|] f1] w1] eqn:Hr; simpl.
  - right. by apply Build_roots_ending in Hr.
  - destruct (format.Build_walk E fuel _ _ w1) as [out w2] eqn:Hb. simpl.
    by apply Build_walk_ending in Hb.
Qed.

(** X7.  An error [Build] returns is an error wrapped with the prefix
    ["fmt: "]: the does-not-exist error of a root, or an error of the file
    pipeline.  The signal [filepath.SkipDir], which the visitor returns to
    prune a directory, is never returned by [Build]. *)
Theorem Build_errors_are_wrapped (E : Env) (fuel : nat) (f : format.Format)
    (config : format.Config) (w : World) (e : error) :
  (format.Build E fuel f config w).1.1 = Ret (Some e) ->
  (exists e0, e = Wrapped "fmt: " e0) /\ e <> SkipDir.
Proof.
  intros H. pose proof (Build_ending E fuel f config w) as Hend.
  rewrite H in Hend. destruct Hend as [[[=] _]|[[e0 ->] _]]. eauto.
Qed.

(** The read of the directory [src/pkg.go] fails. *)
Lemma Build_errors_are_wrapped_witness :
  (exists e0, Wrapped "fmt: " (PathError "read" "src/pkg.go" EISDIR)
              = Wrapped "fmt: " e0) /\
  Wrapped "fmt: " (PathError "read" "src/pkg.go" EISDIR) <> SkipDir.
Proof.
  apply (Build_errors_are_wrapped sample.quiet 10 (format.New sample.bang)
           (sample.root "src") {| fs := sample.src_tree; trace := [] |}).
  vm_compute. reflexivity.
Defined.

(** ** The file pipeline run twice, and its failures *)

(** X8.  A second run of the file pipeline on a path changes nothing when
    the formatter, given what it returned, returns it again: after a run
    that ended without an error the file holds the formatter's result, and
    the next run reads it, calls the formatter, and returns [nil] without
    having written. *)
Theorem format_twice (E : Env) (f : format.Format) (path : string) (w : World) :
  let w1 := (format.format E f path w).2 in
  (format.format E f path w).1 = None ->
  (forall c c', swag.Format (format.formatter f) path c = Ok c' ->
                swag.Format (format.formatter f) path c' = Ok c') ->
  fault E (length (trace w1)) (call_ReadFile path) = None ->
  exists contents perm,
    fs w1 !! path = Some (RegularFile contents perm) /\
    format.format E f path w1
    = (None, {| fs := fs w1;
                trace := call_Format path contents :: call_ReadFile path :: trace w1 |}).
Proof.
  intros w1 Hok Hidem Hfault.
  assert (Hfile : exists contents perm,
            fs w1 !! path = Some (RegularFile contents perm) /\
            swag.Format (format.formatter f) path contents = Ok contents).
  { subst w1. revert Hok. rewrite format_unfold.
    destruct (os.ReadFile E path w) as [[original|e] w0] eqn:Hr; [|done].
    apply ReadFile_spec in Hr as (Hfs0 & _ & Hdata).
    destruct (Hdata original eq_refl) as (perm & Hnd). cbv zeta.
    destruct (swag.Format _ path original) as [formatted|e] eqn:Hfmt; [|done].
    pose proof (Hidem _ _ Hfmt) as Hfix.
    destruct (bytes.Equal original formatted) eqn:Heq.
    - apply bytes_Equal_iff in Heq. subst formatted. simpl. intros _.
      exists original, perm. by rewrite Hfs0.
    - destruct (format.write E path formatted _) as [res w2] eqn:Hw. simpl.
      intros ->. apply write_spec in Hw as (data' & perm' & _ & Hfs2).
      exists formatted. eexists. rewrite Hfs2. split; [apply lookup_insert_eq|done]. }
  destruct Hfile as (contents & perm & Hnd & Hfix). exists contents, perm.
  split; [done|].
  rewrite format_unfold, (ReadFile_regular E path w1 contents perm Hfault Hnd).
  cbv zeta. simpl. rewrite Hfix.
  by rewrite (proj2 (bytes_Equal_iff contents contents) eq_refl).
Qed.

(** [proj/main.go] is rewritten by the first run and left by the second. *)
Lemma format_twice_witness :
  exists contents perm,
    fs (format.format sample.quiet (format.New sample.bang) "proj/main.go"
          sample.world).2 !! "proj/main.go" = Some (RegularFile contents perm) /\
    format.format sample.quiet (format.New sample.bang) "proj/main.go"
      (format.format sample.quiet (format.New sample.bang) "proj/main.go"
         sample.world).2
    = (None,
       {| fs := fs (format.format sample.quiet (format.New sample.bang)
                      "proj/main.go" sample.world).2;
          trace := call_Format "proj/main.go" contents
                   :: call_ReadFile "proj/main.go"
                   :: trace (format.format sample.quiet (format.New sample.bang)
                               "proj/main.go" sample.world).2 |}).
Proof.
  apply (format_twice sample.quiet (format.New sample.bang) "proj/main.go"
           sample.world).
  - vm_compute. reflexivity.
  - intros c c'. simpl. destruct (rev c) as [|x r] eqn:Hc; [done|].
    destruct (Byte.eqb x x21) eqn:Hx.
    + intros [= <-]. by rewrite Hc, Hx.
    + intros [= <-]. by rewrite rev_app_distr.
  - reflexivity.
Defined.

(** X9.  When the formatter refuses the contents of a file the visitor
    runs the pipeline on, the visitor returns the formatter's error
    wrapped with ["fmt: "], after the read and the formatter call: no file
    is touched, nothing is written. *)
Theorem visit_wraps_formatter_error (E : Env) (f : format.Format) (path : string)
    (fi : FileInfo) (err : option error) (w : World)
    (original : list byte) (perm : Z) (e : error) :
  IsDir fi && format.excludeDir f path = false ->
  format.excludeFile f path = false ->
  fault E (length (trace w)) (call_ReadFile path) = None ->
  fs w !! path = Some (RegularFile original perm) ->
  swag.Format (format.formatter f) path original = Err e ->
  format.visit E f path (Some fi) err w
  = (Ret (Some (Wrapped "fmt: " e)),
     {| fs := fs w;
        trace := call_Format path original :: call_ReadFile path :: trace w |}).
Proof.
  intros Hx Hf Hfault Hnd Hfmt. unfold format.visit. rewrite Hx, Hf.
  unfold mbind, lift.
  rewrite format_unfold, (ReadFile_regular E path w original perm Hfault Hnd).
  cbv zeta. simpl. by rewrite Hfmt.
Qed.

(** The formatter [bang] refuses the empty file [e.go]. *)
Lemma visit_wraps_formatter_error_witness :
  format.visit sample.quiet (format.New sample.bang) "e.go" (Some {| Mode := 420 |})
    None {| fs := sample.empty_tree; trace := [] |}
  = (Ret (Some (Wrapped "fmt: " (ErrOther "empty"))),
     {| fs := sample.empty_tree;
        trace := [call_Format "e.go" []; call_ReadFile "e.go"] |}).
Proof.
  apply (visit_wraps_formatter_error sample.quiet (format.New sample.bang) "e.go"
           {| Mode := 420 |} None {| fs := sample.empty_tree; trace := [] |} [] 420);
    vm_compute; reflexivity.
Defined.

(** X10.  [write] replaces regular files only.  It returns [nil] only when
    the path named a regular file; for a path that names nothing it makes
    the [os.Stat] call, returns its error and creates no temporary file;
    for a directory it returns an error and the directory is as it was. *)
Theorem write_needs_a_regular_file (E : Env) (path : string) (contents : list byte)
    (w : World) :
  let r := format.write E path contents w in
  (r.1 = None -> exists data perm, fs w !! path = Some (RegularFile data perm)) /\
  (fs w !! path = None ->
   exists errno,
     r = (Some (PathError "stat" path errno),
          {| fs := fs w; trace := call_Stat path :: trace w |})) /\
  (forall names perm,
     fs w !! path = Some (Directory names perm) ->
     r.1 <> None /\ fs r.2 !! path = Some (Directory names perm)).
Proof.
  intros r. subst r. split; [|split].
  - destruct (format.write E path contents w) as [res w'] eqn:H. simpl.
    intros ->. apply write_spec in H as (data & perm & Hnd & _). eauto.
  - intros Hnd. unfold format.write. unfold bind at 1.
    unfold os.Stat, os.syscall, os.stat_sem. rewrite Hnd.
    destruct (fault E _ _) as [errno|]; eauto.
  - intros names perm Hnd.
    destruct (format.write E path contents w) as [res w'] eqn:H. simpl.
    apply write_spec in H. destruct res as [e|].
    + split; [done|].
      destruct H as [->|(tmp & nd & n & Hne & _ & -> & _)]; [done|].
      by rewrite lookup_insert_ne.
    + destruct H as (data & perm' & Hnd' & _). congruence.
Qed.

(** [write] on the directory [proj/sub], and on a path that names
    nothing. *)
Lemma write_needs_a_regular_file_witness :
  (format.write sample.quiet "proj/sub" (sample.bs "x") sample.world).1 <> None /\
  fs (format.write sample.quiet "proj/sub" (sample.bs "x") sample.world).2
    !! "proj/sub" = Some (Directory ["a.go"] 493).
Proof.
  pose proof (write_needs_a_regular_file sample.quiet "proj/sub" (sample.bs "x")
                sample.world) as H.
  cbv zeta in H. destruct H as (_ & _ & H). apply (H ["a.go"] 493%Z).
  vm_compute. reflexivity.
Defined.

(** ** [write] when nothing fails *)
Section write_quiet.
Variable E : Env.
Hypothesis quiet : forall n c, fault E n c = None.

Lemma Stat_quiet name w nd :
  fs w !! name = Some nd ->
  os.Stat E name w
  = (Ok {| Mode := node_Mode nd |}, {| fs := fs w; trace := call_Stat name :: trace w |}).
Proof. intros Hnd. unfold os.Stat, os.syscall, os.stat_sem. by rewrite quiet, Hnd. Qed.

Lemma CreateTemp_quiet dir pattern prefix suffix w :
  os.prefixAndSuffix pattern = Ok (prefix, suffix) ->
  let tmp := os.joinPath (if String.eqb dir "" then os.TempDir else dir) prefix
             +:+ rnd E (length (trace w)) 0 +:+ suffix in
  fs w !! tmp = None ->
  os.CreateTemp E dir pattern w
  = (Ok {| os.Name := tmp |},
     {| fs := <[tmp := RegularFile [] 384]> (fs w);
        trace := call_CreateTemp dir pattern :: trace w |}).
Proof.
  intros Hps tmp Hfree. unfold os.CreateTemp, os.syscall. rewrite Hps, quiet.
  change (100 * 100)%nat with (S (99 + 99 * 100))%nat.
  cbn [os.first_free]. fold tmp. by rewrite Hfree.
Qed.

Lemma Write_quiet f b w data perm :
  fs w !! os.Name f = Some (RegularFile data perm) ->
  os.Write E f b w
  = (None, {| fs := <[os.Name f := RegularFile (data ++ b) perm]> (fs w);
              trace := call_Write (os.Name f) b :: trace w |}).
Proof. intros Hnd. unfold os.Write. by rewrite quiet, Hnd. Qed.

Lemma Close_quiet f w :
  os.Close E f w = (None, {| fs := fs w; trace := call_Close (os.Name f) :: trace w |}).
Proof. unfold os.Close, os.syscall. by rewrite quiet. Qed.

Lemma Chmod_quiet name mode w data perm :
  fs w !! name = Some (RegularFile data perm) ->
  os.Chmod E name mode w
  = (None, {| fs := <[name := RegularFile data (Z.land mode fs_mode.settable)]> (fs w);
              trace := call_Chmod name mode :: trace w |}).
Proof. intros Hnd. unfold os.Chmod, os.syscall. by rewrite quiet, Hnd. Qed.

Lemma Rename_quiet oldpath newpath w data perm data' perm' :
  fs w !! oldpath = Some (RegularFile data perm) ->
  fs w !! newpath = Some (RegularFile data' perm') ->
  os.Rename E oldpath newpath w
  = (None, {| fs := <[newpath := RegularFile data perm]> (delete oldpath (fs w));
              trace := call_Rename oldpath newpath :: trace w |}).
Proof.
  intros Hold Hnew. unfold os.Rename, os.syscall. by rewrite quiet, Hold, Hnew.
Qed.

Lemma Remove_missing name w :
  fs w !! name = None ->
  os.Remove E name w
  = (Some (PathError "remove" name (os.absent (fs w) name)),
     {| fs := fs w; trace := call_Remove name :: trace w |}).
Proof. intros Hnd. unfold os.Remove, os.syscall. by rewrite quiet, Hnd. Qed.

End write_quiet.

(** X11.  When no call fails and the first temporary name tried is free,
    [write] on a regular file makes seven calls in this order: it stats
    the file, creates the temporary file in the directory of the file with
    the base name of the file as pattern, writes the contents to it, closes
    it, gives it the mode of the file, renames it onto the file, and asks
    for its removal (it is gone by then).  The file then holds the new
    contents under its old mode; no other path has changed. *)
Theorem write_when_nothing_fails (E : Env) (path : string) (contents : list byte)
    (w : World) (data : list byte) (perm : Z) (prefix suffix : string) :
  (forall n c, fault E n c = None) ->
  fs w !! path = Some (RegularFile data perm) ->
  os.prefixAndSuffix (filepath.Base path) = Ok (prefix, suffix) ->
  let dir := filepath.Dir path in
  let mode := node_Mode (RegularFile data perm) in
  let tmp := os.joinPath (if String.eqb dir "" then os.TempDir else dir) prefix
             +:+ rnd E (S (length (trace w))) 0 +:+ suffix in
  fs w !! tmp = None ->
  format.write E path contents w
  = (None,
     {| fs := <[path := RegularFile contents mode]> (fs w);
        trace := [call_Remove tmp; call_Rename tmp path; call_Chmod tmp mode;
                  call_Close tmp; call_Write tmp contents;
                  call_CreateTemp dir (filepath.Base path); call_Stat path]
                 ++ trace w |}).
Proof.
  intros quiet Hnd Hps dir mode tmp Hfree.
  assert (Hne : tmp <> path) by (intros Heq; rewrite Heq in Hfree; congruence).
  unfold format.write. unfold bind at 1.
  rewrite (Stat_quiet E quiet path w _ Hnd). unfold bind at 1.
  rewrite (CreateTemp_quiet E quiet dir (filepath.Base path) prefix suffix _ Hps)
    by done.
  fold dir tmp. unfold defer. unfold bind at 1.
  erewrite (Write_quiet E quiet {| os.Name := tmp |})
    by (simpl; apply lookup_insert_eq).
  unfold bind at 1. rewrite Close_quiet by done. unfold bind at 1.
  erewrite Chmod_quiet by (done || (simpl; apply lookup_insert_eq)).
  erewrite Rename_quiet;
    [|done|simpl; apply lookup_insert_eq
     |simpl; rewrite !lookup_insert_ne by done; exact Hnd].
  rewrite Remove_missing; [|done|].
  - simpl. f_equal. f_equal.
    rewrite !insert_insert_eq, delete_insert_id by done.
    unfold mode. simpl. by rewrite settable_idem.
  - simpl. rewrite lookup_insert_ne by done.
    rewrite !insert_insert_eq, delete_insert_id by done. done.
Qed.

(** [proj/main.go] is replaced through [proj/main.go123]. *)
Lemma write_when_nothing_fails_witness :
  format.write sample.quiet "proj/main.go" (sample.bs "main!") sample.world
  = (None,
     {| fs := <["proj/main.go" := RegularFile (sample.bs "main!") 420]>
                (fs sample.world);
        trace := [call_Remove "proj/main.go123";
                  call_Rename "proj/main.go123" "proj/main.go";
                  call_Chmod "proj/main.go123" 420;
                  call_Close "proj/main.go123";
                  call_Write "proj/main.go123" (sample.bs "main!");
                  call_CreateTemp "proj" "main.go"; call_Stat "proj/main.go"] |}).
Proof.
  apply (write_when_nothing_fails sample.quiet "proj/main.go" (sample.bs "main!")
           sample.world (sample.bs "main") 420 "main.go" "").
  - intros n c. reflexivity.
  - vm_compute. reflexivity.
  - vm_compute. reflexivity.
  - vm_compute. reflexivity.
Defined.

(** ** [Run]: failures, and what it leaves alone *)

Lemma Copy_appends (dst : io.Writer) (b : list byte) :
  exists more, io.written (io.Copy dst b).2 = io.written dst ++ more.
Proof.
  destruct b as [|x b]; [exists []; by rewrite app_nil_r|].
  unfold io.Copy, io.Write. destruct (io.limit dst) as [[k e]|].
  - destruct (length (x :: b) <=? k)%nat.
    + rewrite Nat.eqb_refl. simpl. by eexists.
    + match goal with |- context [if ?c then _ else _] => destruct c end;
        simpl; by eexists.
  - rewrite Nat.eqb_refl. simpl. by eexists.
Qed.

(** X12.  [Run] stops at the first failure and returns its error as it
    is.  A source that fails: the formatter is not called and nothing is
    written.  A formatter that refuses the input: nothing is written.  A
    destination that takes only [k] bytes of a longer result: those [k]
    bytes are written and the error is the destination's, or
    [io.ErrShortWrite] when it gave none. *)
Theorem Run_stops_at_the_first_error (f : format.Format) (src : io.Reader)
    (dst : io.Writer) (w : World) :
  let input := concat (io.pending src) in
  let src' := {| io.pending := []; io.failure := io.failure src |} in
  let w' := {| fs := fs w; trace := call_Format "" input :: trace w |} in
  (forall e, io.failure src = Some e ->
     format.Run f src dst w = ((Some e, src', dst), w)) /\
  (forall e, io.failure src = None ->
     swag.Format (format.formatter f) "" input = Err e ->
     format.Run f src dst w = ((Some e, src', dst), w')) /\
  (forall result k e, io.failure src = None ->
     swag.Format (format.formatter f) "" input = Ok result ->
     io.limit dst = Some (k, e) -> (k < length result)%nat ->
     format.Run f src dst w
     = ((Some (default ErrShortWrite e), src',
         {| io.written := io.written dst ++ firstn k result;
            io.limit := Some (O, e) |}), w')).
Proof.
  intros input src' w'. subst input src' w'.
  unfold format.Run, io.ReadAll. split; [|split].
  - intros e He. by rewrite He.
  - intros e He Hfmt. rewrite He. unfold bind, format.Formatter_Format, ret.
    by rewrite Hfmt.
  - intros result k e He Hfmt Hlim Hk. rewrite He.
    unfold bind, format.Formatter_Format, ret. rewrite Hfmt.
    destruct result as [|x result]; [simpl in Hk; lia|].
    unfold io.Copy, io.Write. rewrite Hlim.
    destruct (Nat.leb_spec (length (x :: result)) k) as [Hle|_]; [lia|].
    destruct (Nat.eqb_spec k (length (x :: result))) as [Heq|_]; [lia|].
    by destruct e.
Qed.

(** A source that breaks off, and a destination with room for two bytes. *)
Lemma Run_stops_at_the_first_error_witness :
  format.Run (format.New sample.bang)
    {| io.pending := [sample.bs "ma"]; io.failure := Some (ErrOther "reset") |}
    {| io.written := []; io.limit := None |} sample.world
  = ((Some (ErrOther "reset"),
      {| io.pending := []; io.failure := Some (ErrOther "reset") |},
      {| io.written := []; io.limit := None |}), sample.world)
  /\ format.Run (format.New sample.bang)
       {| io.pending := [sample.bs "main"]; io.failure := None |}
       {| io.written := []; io.limit := Some (2%nat, None) |} sample.world
     = ((Some ErrShortWrite, {| io.pending := []; io.failure := None |},
         {| io.written := sample.bs "ma"; io.limit := Some (O, None) |}),
        {| fs := fs sample.world;
           trace := [call_Format "" (sample.bs "main")] |}).
Proof.
  split.
  - apply (Run_stops_at_the_first_error (format.New sample.bang)
             {| io.pending := [sample.bs "ma"]; io.failure := Some (ErrOther "reset") |}).
    reflexivity.
  - pose proof (Run_stops_at_the_first_error (format.New sample.bang)
                  {| io.pending := [sample.bs "main"]; io.failure := None |}
                  {| io.written := []; io.limit := Some (2%nat, None) |}
                  sample.world) as H.
    cbv zeta in H. destruct H as (_ & _ & H).
    refine (H (sample.bs "main!") 2%nat None eq_refl eq_refl eq_refl _).
    vm_compute. lia.
Defined.

(** X13.  [Run] makes no call to the file system and changes no file; it
    calls the formatter at most once, with the empty file name and the
    whole input; and what it writes is added after what the destination
    held. *)
Theorem Run_touches_no_file (f : format.Format) (src : io.Reader)
    (dst : io.Writer) (w : World) :
  let r := format.Run f src dst w in
  fs r.2 = fs w /\
  (trace r.2 = trace w \/
   trace r.2 = call_Format "" (concat (io.pending src)) :: trace w) /\
  exists more, io.written r.1.2 = io.written dst ++ more.
Proof.
  intros r. subst r. unfold format.Run, io.ReadAll.
  assert (Hsame : exists more, io.written dst = io.written dst ++ more)
    by (exists []; by rewrite app_nil_r).
  destruct (io.failure src) as [e|]; [by repeat split; [left|]|].
  unfold bind, format.Formatter_Format, ret.
  destruct (swag.Format _ _ _) as [result|e]; [|by repeat split; [right|]].
  pose proof (Copy_appends dst result) as Happ.
  destruct (io.Copy dst result) as [[m [e|]] dst']; simpl in *;
    by repeat split; [right|].
Qed.

(** ** After the first failure *)

(** X14.  [Build] stops at the first error: when it returns an error, the
    last call it has made is not a call of the walk, it belongs to the
    step that failed (the [os.Stat] of a root, or a call of the file
    pipeline up to the removal of its temporary file).  No entry is
    examined, listed or visited after the failure. *)
Theorem Build_stops_at_the_error (E : Env) (fuel : nat) (f : format.Format)
    (config : format.Config) (w : World) (e : error) :
  (format.Build E fuel f config w).1.1 = Ret (Some e) ->
  exists c rest,
    trace (format.Build E fuel f config w).2 = c :: rest /\ ~ walk_call c.
Proof.
  intros H. pose proof (Build_ending E fuel f config w) as Hend.
  rewrite H in Hend. destruct Hend as [[[=] _]|[_ Hend]].
  unfold after_failed_step in Hend.
  destruct (trace _) as [|c rest]; [done|]. by exists c, rest.
Qed.

(** The disk is full when [proj/main.go] is written: the removal of the
    temporary file is the last call, [proj/notes.txt] and what follows are
    not come to. *)
Lemma Build_stops_at_the_error_witness :
  exists c rest,
    trace (format.Build sample.disk_full 10 (format.New sample.bang) sample.proj
             sample.world).2 = c :: rest /\ ~ walk_call c.
Proof.
  apply (Build_stops_at_the_error sample.disk_full 10 (format.New sample.bang)
           sample.proj sample.world
           (Wrapped "fmt: " (PathError "write" "proj/main.go123" ENOSPC))).
  vm_compute. reflexivity.
Defined.



(** ** Test files in any letter case *)

Lemma chars_append (a b : string) : chars (a +:+ b) = chars a ++ chars b.
Proof. induction a as [|c a IH]; simpl; [done|]. by rewrite <- IH. Qed.

Lemma str_app (l k : list ascii) : str (l ++ k) = str l +:+ str k.
Proof. induction l as [|c l IH]; simpl; [done|]. by rewrite IH. Qed.

Lemma ToLower_append (a b : string) :
  strings.ToLower (a +:+ b) = strings.ToLower a +:+ strings.ToLower b.
Proof. unfold strings.ToLower. by rewrite chars_append, map_app, str_app. Qed.

Lemma has_prefix_app (l k : list ascii) : strings.has_prefix l (l ++ k) = true.
Proof.
  induction l as [|c l IH]; simpl; [done|]. by rewrite Ascii.eqb_refl, IH.
Qed.

Lemma HasSuffix_append (a b : string) : strings.HasSuffix (a +:+ b) b = true.
Proof.
  unfold strings.HasSuffix. rewrite chars_append, rev_app_distr.
  apply has_prefix_app.
Qed.

(** X16.  A path that ends in ["_test.go"] written in any letter case (its
    last eight bytes lower-case to ["_test.go"]) is excluded by
    [excludeFile], whatever the exclusion set holds. *)
Theorem excludeFile_test_suffix_any_case (f : format.Format) (stem suffix : string) :
  strings.ToLower suffix = "_test.go" ->
  format.excludeFile f (stem +:+ suffix) = true.
Proof.
  intros Hs. unfold format.excludeFile.
  by rewrite ToLower_append, Hs, HasSuffix_append, orb_true_r.
Qed.

(** [proj/Handler_Test.go] is skipped. *)
Lemma excludeFile_test_suffix_any_case_witness :
  format.excludeFile (format.New sample.bang) ("proj/Handler" +:+ "_Test.go") = true.
Proof.
  apply (excludeFile_test_suffix_any_case (format.New sample.bang)
           "proj/Handler" "_Test.go").
  vm_compute. reflexivity.
Defined.
